(** * Cambridge crime map: a shallow embedding of [cambridge_crime_map.py]

    The script is a linear pipeline over a pandas frame:
    read, clean, group, assign colours, render, save, report.
    The frame is modelled as the list of its rows, in index order.

    Numbers.  Coordinates are float64 values in the source.  The pipeline only
    compares them (equality and order of group keys) and averages them, so
    they are modelled by canonical rationals [Qc], whose equality is Leibniz
    equality.  Row counts are int64 in the source and are modelled by [nat]:
    a frame cannot hold 2^63 rows.  The marker radius is the one place where
    a float is computed; see [npfloat] below. *)

From Stdlib Require Import QArith Qcanon.
From stdpp Require Import base numbers list sorting strings pretty gmap.

Local Open Scope string_scope.
Local Open Scope nat_scope.
Local Open Scope list_scope.

(** ** Frames *)

(** An entry of a coordinate column as [pd.read_csv] delivers it: the NA
    marker, a float (numeric column), or text (object column). *)
Inductive cell :=
  | NaN_cell
  | Float_cell (x : Qc)
  | Str_cell (s : string).

(** A row of the frame read from the CSV file.  The descriptive columns are
    nullable: [None] is pandas' NaN. *)
Record raw_row := RawRow {
  Reporting_Area_Lat : cell;
  Reporting_Area_Lon : cell;
  raw_Crime : option string;
  raw_Neighborhood : option string;
  raw_Location : option string;
  raw_Reporting_Area : option string;
  raw_Date_of_Report : option string
}.

(** A row of the cleaned frame: the columns [lat] and [lon] hold numbers. *)
Record incident := Incident {
  lat : Qc;
  lon : Qc;
  Crime : option string;
  Neighborhood : option string;
  Location : option string;
  Reporting_Area : option string;
  Date_of_Report : option string
}.

(** A row of the frame returned by [aggregate_by_location_and_crime]. *)
Record agg_row := AggRow {
  a_lat : Qc;
  a_lon : Qc;
  a_Crime : string;
  frequency : nat;
  total_incidents : nat;
  a_Neighborhood : option string;
  a_Location : option string;
  a_Reporting_Area : option string
}.

Global Instance cell_eq_dec : EqDecision cell.
Proof. solve_decision. Defined.
Global Instance raw_row_eq_dec : EqDecision raw_row.
Proof. solve_decision. Defined.
Global Instance incident_eq_dec : EqDecision incident.
Proof. solve_decision. Defined.
Global Instance agg_row_eq_dec : EqDecision agg_row.
Proof. solve_decision. Defined.

(** ** Loader: the cleaning steps of [load_and_process_data] *)

Definition isna (c : cell) : bool :=
  match c with NaN_cell => true | _ => false end.

Section loader.
(** [pd.to_numeric] applied to a text entry: the number it denotes, or
    [None] when the text is not numeric ([errors='coerce'] turns that
    into NaN).  The parser belongs to pandas and is a parameter here. *)
Variable str_to_numeric : string → option Qc.

Definition to_numeric (c : cell) : option Qc :=
  match c with
  | NaN_cell => None
  | Float_cell x => Some x
  | Str_cell s => str_to_numeric s
  end.

(** [df.dropna(subset=['Reporting Area Lat', 'Reporting Area Lon'])] *)
Definition dropna_raw (df : list raw_row) : list raw_row :=
  filter (λ r, isna (Reporting_Area_Lat r) = false
             ∧ isna (Reporting_Area_Lon r) = false) df.

(** The two column assignments [df['lat'] = ...], [df['lon'] = ...]
    followed by [df.dropna(subset=['lat', 'lon'])]. *)
Definition with_coords (r : raw_row) : option incident :=
  match to_numeric (Reporting_Area_Lat r), to_numeric (Reporting_Area_Lon r) with
  | Some x, Some y =>
      Some (Incident x y (raw_Crime r) (raw_Neighborhood r) (raw_Location r)
              (raw_Reporting_Area r) (raw_Date_of_Report r))
  | _, _ => None
  end.

Definition process_data (df : list raw_row) : list incident :=
  omap with_coords (dropna_raw df).

(** A row has bad coordinates when an entry is absent or is not numeric. *)
Definition bad_coords (r : raw_row) : Prop :=
  to_numeric (Reporting_Area_Lat r) = None
  ∨ to_numeric (Reporting_Area_Lon r) = None.
End loader.

(** ** Aggregator *)

(** [Series.unique()]: the distinct values in order of first appearance. *)
Fixpoint unique `{EqDecision A} (l : list A) : list A :=
  match l with
  | [] => []
  | x :: l => x :: filter (λ y, y ≠ x) (unique l)
  end.

(** Group keys are sorted ([groupby] has [sort=True]): tuples compare
    lexicographically, floats by value, strings as Python compares [str]. *)
Definition string_le (s1 s2 : string) : Prop := String.leb s1 s2 = true.

Definition coord_le (k1 k2 : Qc * Qc) : Prop :=
  (k1.1 < k2.1)%Qc ∨ (k1.1 = k2.1 ∧ (k1.2 ≤ k2.2)%Qc).

Definition key_le (k1 k2 : Qc * Qc * string) : Prop :=
  (coord_le k1.1 k2.1 ∧ k1.1 ≠ k2.1) ∨ (k1.1 = k2.1 ∧ string_le k1.2 k2.2).

Global Instance string_le_dec : RelDecision string_le.
Proof. intros s1 s2. unfold string_le. apply _. Defined.
Global Instance coord_le_dec : RelDecision coord_le.
Proof. intros k1 k2. unfold coord_le. apply _. Defined.
Global Instance key_le_dec : RelDecision key_le.
Proof. intros k1 k2. unfold key_le. apply _. Defined.

(** [df.groupby(keys).size().reset_index(name=...)]: one row per distinct
    key, in key order, with the number of rows that carry the key.  [keys]
    lists the key of every row that has one: [groupby] leaves out the rows
    with NaN in a key column ([dropna=True]). *)
Definition groupby_size `{EqDecision K} (le : relation K) `{!RelDecision le}
    (keys : list K) : list (K * nat) :=
  (λ k, (k, length (filter (λ k', k' = k) keys))) <$> merge_sort le (unique keys).

Definition loc (r : incident) : Qc * Qc := (lat r, lon r).

Definition key3 (r : incident) : option (Qc * Qc * string) :=
  c ← Crime r; Some (lat r, lon r, c).

(** [GroupBy.first]: the first entry of the column that is not NA, and NA
    when every entry is. *)
Definition first {A} (col : list (option A)) : option A :=
  head (omap id col).

(** [left.merge(right, on=['lat', 'lon'])]: inner join, rows in the order of
    the left frame. *)
Definition merge {L R} (kl : L → Qc * Qc) (kr : R → Qc * Qc)
    (left : list L) (right : list R) : list (L * R) :=
  l ← left; (λ r, (l, r)) <$> filter (λ r, kr r = kl l) right.

Definition grouped (df : list incident) : list (Qc * Qc * string * nat) :=
  groupby_size key_le (omap key3 df).

Definition location_totals (df : list incident) : list (Qc * Qc * nat) :=
  groupby_size coord_le (loc <$> df).

Definition location_info (df : list incident)
    : list (Qc * Qc * (option string * option string * option string)) :=
  (λ k, let g := filter (λ r, loc r = k) df in
        (k, (first (Neighborhood <$> g), first (Location <$> g),
             first (Reporting_Area <$> g))))
  <$> merge_sort coord_le (unique (loc <$> df)).

Definition aggregate_by_location_and_crime (df : list incident) : list agg_row :=
  let result := merge (λ g, g.1.1) fst (grouped df) (location_totals df) in
  let result := merge (λ gt, gt.1.1.1) fst result (location_info df) in
  (λ '((k, c, f, (_, t)), (_, (nb, lc, ra))), AggRow k.1 k.2 c f t nb lc ra) <$> result.

(** ** Exceptions *)

(** The exceptions that can leave the script, named as Python names them.
    The script catches none of them. *)
Inductive exn :=
  | FileNotFoundError
  | ParserError
  | KeyError (key : string)
  | ValueError
  | PermissionError.

Inductive result (A : Type) :=
  | Ok (a : A)
  | Raise (e : exn).
Arguments Ok {A} a.
Arguments Raise {A} e.

Global Instance result_bind : MBind result := λ A B k m,
  match m with
  | Ok a => k a
  | Raise e => Raise e
  end.

Fixpoint for_each {A B} (f : A → result B) (l : list A) : result (list B) :=
  match l with
  | [] => Ok []
  | x :: l => y ← f x; ys ← for_each f l; Ok (y :: ys)
  end.

(** A dict look-up [d[k]]. *)
Definition getitem (d : gmap string string) (k : string) : result string :=
  match d !! k with
  | Some v => Ok v
  | None => Raise (KeyError k)
  end.

(** ** Palette *)

Definition get_color_palette : list string :=
  [ "#FF6B6B"; "#4ECDC4"; "#45B7D1"; "#96CEB4"; "#FCEA4B";
    "#FF8A80"; "#9C27B0"; "#FF5722"; "#795548"; "#607D8B";
    "#E91E63"; "#00BCD4"; "#8BC34A"; "#FFC107"; "#FF9800";
    "#673AB7"; "#3F51B5"; "#2196F3"; "#009688"; "#4CAF50" ].

(** [aggregated['Crime'].unique()] *)
Definition crime_types (aggregated : list agg_row) : list string :=
  unique (a_Crime <$> aggregated).

(** [enumerate] *)
Definition enumerate {A} (l : list A) : list (nat * A) := imap pair l.

(** [{crime: colors[i % len(colors)] for i, crime in enumerate(crime_types)}]:
    the entries are stored from left to right, a later one replacing an
    earlier one with the same key. *)
Definition dict_comprehension (colors : list string) (types : list string)
    : gmap string string :=
  foldl (λ d ic, <[ic.2 := colors !!! (ic.1 `mod` length colors)]> d) ∅
        (enumerate types).

Definition color_map (aggregated : list agg_row) : gmap string string :=
  dict_comprehension get_color_palette (crime_types aggregated).

(** ** Marker radius *)

(** A float64 result: a finite value, computed exactly, or one of the
    special values. *)
Inductive npfloat :=
  | Finite (q : Qc)
  | PInf
  | NInf
  | NaN.

(** [a / b] on numpy int64 scalars is true division into float64.  A zero
    divisor raises nothing: numpy issues a RuntimeWarning and the quotient is
    nan for [0 / 0] and a signed infinity otherwise. *)
Definition true_divide (a b : Z) : npfloat :=
  if decide (b = 0)%Z then
    if decide (a = 0)%Z then NaN
    else if decide (0 < a)%Z then PInf else NInf
  else Finite (Qc_of_Z a / Qc_of_Z b).

(** [x * k] and [c + x] for finite constants [k] and [c]. *)
Definition times (x : npfloat) (k : Qc) : npfloat :=
  match x with
  | Finite q => Finite (q * k)
  | NaN => NaN
  | PInf => if decide (k = 0%Qc) then NaN else if decide (0 < k)%Qc then PInf else NInf
  | NInf => if decide (k = 0%Qc) then NaN else if decide (0 < k)%Qc then NInf else PInf
  end.

Definition plus (c : Qc) (x : npfloat) : npfloat :=
  match x with
  | Finite q => Finite (c + q)
  | _ => x
  end.

(** [Series.max()] and [Series.min()] of a column of counts; [None] is the
    nan that pandas returns for an empty column. *)
Definition series_max (col : list nat) : option nat :=
  match col with
  | [] => None
  | x :: col => Some (foldl Nat.max x col)
  end.

Definition series_min (col : list nat) : option nat :=
  match col with
  | [] => None
  | x :: col => Some (foldl Nat.min x col)
  end.

(** [size = 5 + (row['total_incidents'] - min_total) / (max_total - min_total) * 20] *)
Definition marker_size (min_total max_total total : nat) : npfloat :=
  plus (Qc_of_Z 5)
       (times (true_divide (Z.of_nat total - Z.of_nat min_total)
                           (Z.of_nat max_total - Z.of_nat min_total))
              (Qc_of_Z 20)).

(** ** Markers and legend *)

Record popup := Popup {
  p_Location : string;
  p_Neighborhood : string;
  p_Crime : string;
  p_frequency : nat;
  p_total_incidents : nat
}.

Record marker := CircleMarker {
  m_location : Qc * Qc;
  radius : npfloat;
  m_popup : popup;
  color : string;
  fillColor : string
}.

(** [row[c] if pd.notna(row[c]) else 'Not specified'] *)
Definition or_not_specified (v : option string) : string :=
  default "Not specified" v.

(** The body of the [for _, row in aggregated.iterrows()] loop. *)
Definition circle_marker (cmap : gmap string string) (min_total max_total : nat)
    (row : agg_row) : result marker :=
  let size := marker_size min_total max_total (total_incidents row) in
  let popup_text :=
    Popup (or_not_specified (a_Location row)) (or_not_specified (a_Neighborhood row))
          (a_Crime row) (frequency row) (total_incidents row) in
  c ← getitem cmap (a_Crime row);
  fc ← getitem cmap (a_Crime row);
  Ok (CircleMarker (a_lat row, a_lon row) size popup_text c fc).

(** The whole loop.  On an empty frame [max()] and [min()] are nan and the
    loop body never runs. *)
Definition add_markers (cmap : gmap string string) (aggregated : list agg_row)
    : result (list marker) :=
  match series_min (total_incidents <$> aggregated),
        series_max (total_incidents <$> aggregated) with
  | Some min_total, Some max_total =>
      for_each (circle_marker cmap min_total max_total) aggregated
  | _, _ => Ok []
  end.

(** [sorted] on a list of [str]: ascending in Python's string order, which
    compares code points; on the UTF-8 bytes of a [string] this is the
    byte-wise order [String.leb]. *)
Definition sorted (l : list string) : list string := merge_sort string_le l.

Record legend_entry := LegendEntry {
  l_crime_type : string;
  l_color : string;
  l_count : nat
}.

(** The text of a legend line: [f"{crime_type} ({count} locations)"]. *)
Definition legend_text (e : legend_entry) : string :=
  l_crime_type e +:+ " (" +:+ pretty (l_count e) +:+ " locations)".

(** The [for crime_type in sorted(crime_types)] loop. *)
Definition legend (cmap : gmap string string) (aggregated : list agg_row)
    : result (list legend_entry) :=
  for_each (λ crime_type,
      c ← getitem cmap crime_type;
      let count := length (filter (λ row, a_Crime row = crime_type) aggregated) in
      Ok (LegendEntry crime_type c count))
    (sorted (crime_types aggregated)).

(** ** The script: reading, rendering, saving, reporting *)

(** What [pd.read_csv] finds at a path. *)
Record csv_frame := CsvFrame {
  csv_columns : list string;
  csv_rows : list raw_row
}.

Inductive source :=
  | Missing
  | Unparseable
  | Parsed (f : csv_frame).

(** The cleaned frame with its column labels.  A row record has a field for
    every column the script names; the labels say which of them the file
    really has, and looking up another one raises [KeyError]. *)
Record DataFrame := Frame {
  columns : list string;
  rows : list incident
}.

Record folium_map := FoliumMap {
  center : Qc * Qc;
  markers : list marker;
  legend_entries : list legend_entry
}.

(** [Series.mean()]; [None] is the nan of an empty column. *)
Definition mean (col : list Qc) : option Qc :=
  match col with
  | [] => None
  | _ => Some (foldr Qcplus 0%Qc col / Qc_of_Z (Z.of_nat (length col)))%Qc
  end.

(** [folium.Map(location=[center_lat, center_lon], ...)]: folium validates
    the location and rejects nan with a [ValueError]. *)
Definition Map (center_lat center_lon : option Qc) : result (Qc * Qc) :=
  match center_lat, center_lon with
  | Some x, Some y => Ok (x, y)
  | _, _ => Raise ValueError
  end.

Definition require_column (cols : list string) (c : string) : result () :=
  if decide (c ∈ cols) then Ok () else Raise (KeyError c).

Section script.
Variable str_to_numeric : string → option Qc.

(** The files the script can read, and whether a path can be written. *)
Variable disk : string → source.
Variable writable : string → bool.

Definition read_csv (csv_path : string) : result csv_frame :=
  match disk csv_path with
  | Missing => Raise FileNotFoundError
  | Unparseable => Raise ParserError
  | Parsed f => Ok f
  end.

Definition load_and_process_data (csv_path : string) : result DataFrame :=
  df ← read_csv csv_path;
  _ ← require_column (csv_columns df) "Reporting Area Lat";
  _ ← require_column (csv_columns df) "Reporting Area Lon";
  Ok (Frame (csv_columns df ++ ["lat"; "lon"])
            (process_data str_to_numeric (csv_rows df))).

(** The column look-ups of [aggregate_by_location_and_crime], in the order
    the function performs them. *)
Definition aggregate_frame (df : DataFrame) : result (list agg_row) :=
  _ ← require_column (columns df) "Crime";
  _ ← require_column (columns df) "Neighborhood";
  _ ← require_column (columns df) "Location";
  _ ← require_column (columns df) "Reporting Area";
  Ok (aggregate_by_location_and_crime (rows df)).

Definition create_cambridge_crime_map (csv_path : string) : result folium_map :=
  df ← load_and_process_data csv_path;
  aggregated ← aggregate_frame df;
  let cmap := color_map aggregated in
  m ← Map (mean (lat <$> rows df)) (mean (lon <$> rows df));
  ms ← add_markers cmap aggregated;
  lg ← legend cmap aggregated;
  Ok (FoliumMap m ms lg).

(** The files written so far, by path. *)
Definition outputs : Type := list (string * folium_map).

(** [crime_map.save(output_file)] *)
Definition save (crime_map : folium_map) (output_file : string) (out : outputs)
    : result () * outputs :=
  if writable output_file then (Ok (), (output_file, crime_map) :: out)
  else (Raise PermissionError, out).

(** The summary block of [main].  Its lines go to the console, which is
    not modelled; what is kept are the column look-ups, which can raise. *)
Definition summary (csv_path : string) : result () :=
  df ← load_and_process_data csv_path;
  _ ← require_column (columns df) "lat";
  _ ← require_column (columns df) "lon";
  _ ← require_column (columns df) "Crime";
  _ ← require_column (columns df) "Date of Report";
  Ok ().

Definition main (out : outputs) : result () * outputs :=
  match create_cambridge_crime_map "../../crimedata.csv" with
  | Raise e => (Raise e, out)
  | Ok crime_map =>
      match save crime_map "cambridge_crime_map.html" out with
      | (Raise e, out) => (Raise e, out)
      | (Ok _, out) => (summary "../../crimedata.csv", out)
      end
  end.
End script.

(** ** Notions used in the statements *)

(** The incidents of the cleaned frame at a coordinate, in frame order. *)
Definition incidents_at (df : list incident) (c : Qc * Qc) : list incident :=
  filter (λ r, loc r = c) df.

(** The group keys of [grouped], and the aggregate row of a group key. *)
Definition group_keys (df : list incident) : list (Qc * Qc * string) :=
  merge_sort key_le (unique (omap key3 df)).

Definition agg_of_key (df : list incident) (k : Qc * Qc * string) : agg_row :=
  AggRow k.1.1 k.1.2 k.2
    (length (filter (λ k', k' = k) (omap key3 df)))
    (length (filter (λ c, c = k.1) (loc <$> df)))
    (first (Neighborhood <$> incidents_at df k.1))
    (first (Location <$> incidents_at df k.1))
    (first (Reporting_Area <$> incidents_at df k.1)).

Definition coord_of (row : agg_row) : Qc * Qc := (a_lat row, a_lon row).

(** The aggregate rows at a coordinate, and the sum of their frequencies. *)
Definition rows_at (aggregated : list agg_row) (c : Qc * Qc) : list agg_row :=
  filter (λ row, coord_of row = c) aggregated.

Definition frequency_sum_at (aggregated : list agg_row) (c : Qc * Qc) : nat :=
  sum_list (frequency <$> rows_at aggregated c).

(** The coordinates and category of an incident, and the key and counts of
    an aggregate row. *)
Definition place_and_crime (r : incident) : Qc * Qc * option string :=
  (lat r, lon r, Crime r).

Definition key_and_counts (row : agg_row) : Qc * Qc * string * nat * nat :=
  (a_lat row, a_lon row, a_Crime row, frequency row, total_incidents row).

(** [v] is the first entry of [col] that is present, or absent when no
    entry is. *)
Definition first_present {A} (col : list (option A)) (v : option A) : Prop :=
  match v with
  | Some a => ∃ i, col !! i = Some (Some a) ∧ ∀ j, j < i → col !! j = Some None
  | None => ∀ x, x ∈ col → x = None
  end.

(** The radius formula of the specification, over the rationals. *)
Definition interpolate (min_total max_total total : nat) : Qc :=
  (Qc_of_Z 5
   + (Qc_of_Z (Z.of_nat total) - Qc_of_Z (Z.of_nat min_total))
     / (Qc_of_Z (Z.of_nat max_total) - Qc_of_Z (Z.of_nat min_total))
     * Qc_of_Z 20)%Qc.

(** The order of float64 values; nan is not comparable. *)
Definition float_le (x y : npfloat) : Prop :=
  match x, y with
  | Finite a, Finite b => (a ≤ b)%Qc
  | NInf, (Finite _ | PInf | NInf) => True
  | (Finite _ | PInf), PInf => True
  | _, _ => False
  end.

(** The specification's [DataSourceError]: the script defines no such class;
    what propagates are the exceptions of [pd.read_csv]. *)
Definition DataSourceError (e : exn) : Prop :=
  e = FileNotFoundError ∨ e = ParserError.

(** The two paths of [main]. *)
Definition input_path : string := "../../crimedata.csv".
Definition output_path : string := "cambridge_crime_map.html".

(** ** Statements of the specification that the script does not satisfy *)

(** The second half of C1 as the specification words it: at every
    coordinate the frequencies of the aggregate rows add up to the total. *)
Definition frequencies_add_up_to_total (df : list incident) : Prop :=
  ∀ row, row ∈ aggregate_by_location_and_crime df →
    frequency_sum_at (aggregate_by_location_and_crime df) (coord_of row)
    = total_incidents row.

(** C6 as the specification words it: the three fields of every aggregate
    row are those of the first incident at the row's coordinate. *)
Definition fields_of_first_incident (df : list incident) : Prop :=
  ∀ row, row ∈ aggregate_by_location_and_crime df →
    ∃ r, head (incidents_at df (coord_of row)) = Some r
       ∧ a_Neighborhood row = Neighborhood r
       ∧ a_Location row = Location r
       ∧ a_Reporting_Area row = Reporting_Area r.

(** The legend lines that C8 quotes. *)
Definition legend_lines_as_specified (df : list incident) : Prop :=
  ∃ lg, legend (color_map (aggregate_by_location_and_crime df))
               (aggregate_by_location_and_crime df) = Ok lg
      ∧ legend_text <$> lg = ["Assault (1 location)"; "Theft (1 location)"].

(** The last sentence of C9 as the specification words it: a run either
    succeeds with the output file written, or fails with nothing written. *)
Definition all_or_nothing (str_to_numeric : string → option Qc)
    (disk : string → source) (writable : string → bool) : Prop :=
  ∀ out,
    match main str_to_numeric disk writable out with
    | (Ok _, out') => ∃ m, out' = (output_path, m) :: out
    | (Raise _, out') => out' = out
    end.

(** ** Sample data *)

(** A decimal number, and rows with no descriptive fields. *)
Definition dec (n : Z) (d : positive) : Qc := Q2Qc (n # d).

Definition bare (la lo : Qc) (c : option string) : incident :=
  Incident la lo c None None None None.

Definition raw_bare (la lo : cell) (c : option string) : raw_row :=
  RawRow la lo c None None None None.

(** The scenario of the specification: three incidents at two places. *)
Definition scenario : list (Qc * Qc * option string) :=
  [ (dec 4237 100, dec (-7110) 100, Some "Theft");
    (dec 4237 100, dec (-7110) 100, Some "Theft");
    (dec 4238 100, dec (-7111) 100, Some "Assault") ].

Definition df_scenario : list incident :=
  [ bare (dec 4237 100) (dec (-7110) 100) (Some "Theft");
    bare (dec 4237 100) (dec (-7110) 100) (Some "Theft");
    bare (dec 4238 100) (dec (-7111) 100) (Some "Assault") ].

(** A single incident: one aggregate row, so [min_total = max_total]. *)
Definition df_single : list incident :=
  [ bare (dec 4237 100) (dec (-7110) 100) (Some "Theft") ].

(** Two incidents at one place, the second without a category. *)
Definition df_uncategorised : list incident :=
  [ bare (dec 4237 100) (dec (-7110) 100) (Some "Theft");
    bare (dec 4237 100) (dec (-7110) 100) None ].

(** Two incidents at one place; only the second names a neighbourhood. *)
Definition df_late_neighborhood : list incident :=
  [ Incident (dec 4237 100) (dec (-7110) 100) (Some "Theft")
             None (Some "100 Main St") None None;
    Incident (dec 4237 100) (dec (-7110) 100) (Some "Theft")
             (Some "Area 4") (Some "200 Main St") None None ].

(** A well-formed file with every column the map needs, but without the
    column [Date of Report] that only the summary reads. *)
Definition csv_without_dates : csv_frame :=
  CsvFrame
    ["Crime"; "Neighborhood"; "Location"; "Reporting Area";
     "Reporting Area Lat"; "Reporting Area Lon"]
    [ raw_bare (Float_cell (dec 4237 100)) (Float_cell (dec (-7110) 100)) (Some "Theft");
      raw_bare (Float_cell (dec 4237 100)) (Float_cell (dec (-7110) 100)) (Some "Theft");
      raw_bare (Float_cell (dec 4238 100)) (Float_cell (dec (-7111) 100)) (Some "Assault") ].

Definition disk_without_dates (path : string) : source :=
  if decide (path = input_path) then Parsed csv_without_dates else Missing.

Definition empty_disk (path : string) : source := Missing.

(** Closed decidable goals are settled by evaluation. *)
Ltac by_computation :=
  match goal with
  | |- ?P => apply (@bool_decide_unpack P _); vm_compute; exact I
  end.

(** ** The summary block, and notions for the further properties *)

(** The three counts that the summary block of [main] prints: [len(df)],
    [len(df.groupby(['lat', 'lon']))], the number of groups, and
    [len(df['Crime'].unique())], where [unique] keeps NaN as one value. *)
Definition summary_counts (df : list incident) : nat * nat * nat :=
  (length df,
   length (groupby_size coord_le (loc <$> df)),
   length (unique (Crime <$> df))).

(** The group key of an aggregate row. *)
Definition key_of (row : agg_row) : Qc * Qc * string :=
  (a_lat row, a_lon row, a_Crime row).

(** The fields that the join on (lat, lon) attaches to a row. *)
Definition location_fields (row : agg_row)
    : nat * option string * option string * option string :=
  (total_incidents row, a_Neighborhood row, a_Location row, a_Reporting_Area row).

(** The descriptive columns of a raw row and of a cleaned row. *)
Definition raw_fields (r : raw_row) : list (option string) :=
  [raw_Crime r; raw_Neighborhood r; raw_Location r; raw_Reporting_Area r;
   raw_Date_of_Report r].

Definition fields (r : incident) : list (option string) :=
  [Crime r; Neighborhood r; Location r; Reporting_Area r; Date_of_Report r].

(** Four incidents at three places; one has no category, and the two
    places with a category differ in their number of incidents. *)
Definition df_mixed : list incident :=
  [ Incident (dec 4238 100) (dec (-7111) 100) (Some "Assault")
             None None (Some "105") None;
    Incident (dec 4237 100) (dec (-7110) 100) (Some "Theft")
             (Some "Area 4") None None None;
    Incident (dec 4236 100) (dec (-7109) 100) None None None None None;
    Incident (dec 4237 100) (dec (-7110) 100) (Some "Assault")
             None (Some "200 Main St") None None ].

(** * Properties *)

(** ** [unique] and sorting *)

Section unique_facts.
Context `{EqDecision A}.
Implicit Types (x : A) (l : list A).

Lemma elem_of_unique x l : x ∈ unique l ↔ x ∈ l.
Proof.
  induction l as [|y l IH]; simpl; [done|].
  rewrite !elem_of_cons, list_elem_of_filter, IH.
  destruct (decide (x = y)); naive_solver.
Qed.

Lemma NoDup_unique l : NoDup (unique l).
Proof.
  induction l as [|y l IH]; simpl; [constructor|].
  constructor; [|by apply NoDup_filter].
  rewrite list_elem_of_filter. naive_solver.
Qed.

Lemma filter_all (P : A → Prop) `{∀ x, Decision (P x)} l :
  (∀ x, x ∈ l → P x) → filter P l = l.
Proof.
  induction l as [|y l IH]; intros HP; [done|].
  rewrite filter_cons_True by (apply HP; left).
  f_equal. apply IH. intros x Hx. apply HP. by right.
Qed.

Lemma unique_NoDup_id l : NoDup l → unique l = l.
Proof.
  induction 1 as [|x l Hx _ IH]; simpl; [done|].
  rewrite IH. f_equal. apply filter_all. by intros y Hy ->.
Qed.

Lemma NoDup_sorted_unique (le : relation A) `{!RelDecision le} l :
  NoDup (merge_sort le (unique l)).
Proof. rewrite merge_sort_Permutation. apply NoDup_unique. Qed.

Lemma elem_of_sorted_unique (le : relation A) `{!RelDecision le} x l :
  x ∈ merge_sort le (unique l) ↔ x ∈ l.
Proof. by rewrite merge_sort_Permutation, elem_of_unique. Qed.
End unique_facts.

(** ** The aggregator in closed form *)

Section merge_facts.
Context {L V : Type}.

Lemma filter_keyed (g : Qc * Qc → V) (ks : list (Qc * Qc)) k :
  NoDup ks →
  filter (λ r : Qc * Qc * V, r.1 = k) ((λ k, (k, g k)) <$> ks)
  = if decide (k ∈ ks) then [(k, g k)] else [].
Proof.
  induction 1 as [|k' ks Hk' Hks IH].
  - case_decide as Hin; [by apply elem_of_nil in Hin|done].
  - rewrite fmap_cons, filter_cons, IH. cbn [fst].
    destruct (decide (k' = k)) as [->|Hne].
    + rewrite (decide_False (P := k ∈ ks)) by done.
      by rewrite decide_True by left.
    + destruct (decide (k ∈ ks)) as [Hin|Hin].
      * by rewrite decide_True by by right.
      * rewrite decide_False; [done|]. rewrite elem_of_cons. naive_solver.
Qed.

Lemma merge_keyed (kl : L → Qc * Qc) (g : Qc * Qc → V) left ks :
  NoDup ks →
  (∀ l, l ∈ left → kl l ∈ ks) →
  merge kl fst left ((λ k, (k, g k)) <$> ks)
  = (λ l, (l, (kl l, g (kl l)))) <$> left.
Proof.
  intros Hks. unfold merge.
  induction left as [|l left IH]; intros Hin; [done|].
  rewrite bind_cons, fmap_cons, IH by (intros; apply Hin; by right).
  rewrite (filter_keyed g ks (kl l) Hks), decide_True by (apply Hin; left).
  done.
Qed.
End merge_facts.

Lemma key3_loc (df : list incident) k : k ∈ omap key3 df → k.1 ∈ loc <$> df.
Proof.
  rewrite list_elem_of_omap. intros (r & Hr & Hk).
  unfold key3 in Hk. destruct (Crime r); simplify_eq/=.
  by apply (list_elem_of_fmap_2 loc).
Qed.

Lemma aggregate_closed_form (df : list incident) :
  aggregate_by_location_and_crime df = agg_of_key df <$> group_keys df.
Proof.
  unfold aggregate_by_location_and_crime, grouped, location_totals,
    location_info, groupby_size.
  rewrite (merge_keyed (λ g : Qc * Qc * string * nat, g.1.1)
             (λ k, length (filter (λ k', k' = k) (loc <$> df)))).
  - rewrite (merge_keyed _
      (λ k, let g := filter (λ r, loc r = k) df in
            (first (Neighborhood <$> g), first (Location <$> g),
             first (Reporting_Area <$> g)))).
    + rewrite <-!list_fmap_compose. apply list_fmap_ext.
      intros _ [[c1 c2] c] _. done.
    + apply NoDup_sorted_unique.
    + intros l (g & -> & Hg)%list_elem_of_fmap.
      apply list_elem_of_fmap in Hg as (k & -> & Hk). simpl.
      apply elem_of_sorted_unique. apply elem_of_sorted_unique in Hk.
      by apply key3_loc.
  - apply NoDup_sorted_unique.
  - intros l. rewrite list_elem_of_fmap. intros (k & -> & Hk). simpl.
    apply elem_of_sorted_unique. apply elem_of_sorted_unique in Hk.
    by apply key3_loc.
Qed.

Lemma NoDup_group_keys (df : list incident) : NoDup (group_keys df).
Proof. apply NoDup_sorted_unique. Qed.

Lemma elem_of_group_keys (df : list incident) k :
  k ∈ group_keys df ↔ ∃ r, r ∈ df ∧ loc r = k.1 ∧ Crime r = Some k.2.
Proof.
  unfold group_keys. rewrite elem_of_sorted_unique, list_elem_of_omap.
  split.
  - intros (r & Hr & Hk). exists r. unfold key3 in Hk.
    destruct (Crime r); simplify_eq/=. done.
  - intros (r & Hr & Hl & Hc). exists r. split; [done|].
    unfold key3. rewrite Hc. simpl. destruct k as [[??]?].
    unfold loc in Hl. simplify_eq/=. done.
Qed.

Lemma elem_of_aggregate (df : list incident) row :
  row ∈ aggregate_by_location_and_crime df
  ↔ ∃ k, k ∈ group_keys df ∧ row = agg_of_key df k.
Proof. rewrite aggregate_closed_form, list_elem_of_fmap. naive_solver. Qed.

(** The two counts of a row, read off the cleaned frame. *)
Lemma count_loc (df : list incident) c :
  length (filter (λ c', c' = c) (loc <$> df)) = length (incidents_at df c).
Proof.
  unfold incidents_at. induction df as [|r df IH]; [done|].
  rewrite fmap_cons, !filter_cons. repeat case_decide; simpl; congruence.
Qed.

Lemma count_key3 (df : list incident) c crime :
  length (filter (λ k', k' = (c, crime)) (omap key3 df))
  = length (filter (λ r, loc r = c ∧ Crime r = Some crime) df).
Proof.
  induction df as [|r df IH]; [done|].
  rewrite (filter_cons (λ r, _ ∧ _)).
  assert (omap key3 (r :: df)
          = match Crime r with
            | Some cr => (loc r, cr) :: omap key3 df
            | None => omap key3 df
            end) as ->.
  { cbn. unfold key3 at 1. by destruct (Crime r). }
  destruct (Crime r) as [cr|] eqn:Hcr.
  - rewrite filter_cons.
    destruct (decide ((loc r, cr) = (c, crime))) as [Heq|Hne].
    + rewrite decide_True by (by simplify_eq). simpl. by rewrite IH.
    + rewrite decide_False; [done|]. intros [<- [= <-]]. done.
  - rewrite decide_False; [done|]. by intros [_ ?].
Qed.

(** ** Counting *)

Lemma sum_list_fmap_plus {A} (f g : A → nat) (l : list A) :
  sum_list ((λ x, f x + g x) <$> l) = sum_list (f <$> l) + sum_list (g <$> l).
Proof. induction l as [|x l IH]; csimpl; [done|]. rewrite IH. lia. Qed.

Lemma sum_list_indicator `{EqDecision A} (a : A) (l : list A) :
  NoDup l →
  sum_list ((λ x, if decide (a = x) then 1 else 0) <$> l)
  = if decide (a ∈ l) then 1 else 0.
Proof.
  induction 1 as [|x l Hx Hl IH]; [done|].
  csimpl. rewrite IH.
  destruct (decide (a = x)) as [->|Hne].
  - rewrite (decide_False (P := x ∈ l)) by done.
    by rewrite decide_True by left.
  - destruct (decide (a ∈ l)) as [Hin|Hin].
    + by rewrite decide_True by by right.
    + rewrite decide_False; [done|]. rewrite elem_of_cons. naive_solver.
Qed.

Lemma sum_list_zero {A} (l : list A) : sum_list ((λ _, 0) <$> l) = 0.
Proof. by induction l. Qed.

(** Summing, over a duplicate-free list of categories that covers the
    categories of [g], the number of rows of each category counts every row
    of [g] that has a category once. *)
Lemma sum_count_by_category (cs : list string) (g : list incident) :
  NoDup cs →
  (∀ r cr, r ∈ g → Crime r = Some cr → cr ∈ cs) →
  sum_list ((λ cr, length (filter (λ r, Crime r = Some cr) g)) <$> cs)
  = length (filter (λ r, is_Some (Crime r)) g).
Proof.
  intros Hcs. induction g as [|r g IH]; intros Hcov.
  - apply sum_list_zero.
  - rewrite (filter_cons (λ r, is_Some _)).
    assert (sum_list ((λ cr, length (filter (λ r, Crime r = Some cr) g)) <$> cs)
            = length (filter (λ r, is_Some (Crime r)) g)) as IH'.
    { apply IH. intros r' cr Hr'. apply Hcov. by right. }
    destruct (Crime r) as [cr0|] eqn:Hcr.
    + rewrite decide_True by done. cbn [length]. rewrite <-IH'.
      rewrite (list_fmap_ext _
        (λ cr, (if decide (cr0 = cr) then 1 else 0)
               + length (filter (λ r, Crime r = Some cr) g))).
      2:{ intros _ cr _. rewrite filter_cons, Hcr.
          destruct (decide (cr0 = cr)) as [->|Hne].
          - by rewrite decide_True.
          - by rewrite decide_False by congruence. }
      rewrite sum_list_fmap_plus, sum_list_indicator by done.
      rewrite decide_True; [done|]. apply (Hcov r); [left|done].
    + rewrite decide_False by (by intros [? ?]). rewrite <-IH'.
      f_equal. apply list_fmap_ext. intros _ cr _.
      by rewrite filter_cons, Hcr, decide_False.
Qed.

(** ** C1: frequencies and totals *)

Lemma frequency_agg_of_key (df : list incident) k :
  frequency (agg_of_key df k)
  = length (filter (λ r, Crime r = Some k.2) (incidents_at df k.1)).
Proof.
  destruct k as [c cr]. unfold agg_of_key, incidents_at. cbn [frequency fst snd].
  rewrite count_key3, list_filter_filter.
  f_equal. apply list_filter_iff. naive_solver.
Qed.

Lemma total_agg_of_key (df : list incident) k :
  total_incidents (agg_of_key df k) = length (incidents_at df k.1).
Proof. unfold agg_of_key. cbn [total_incidents]. apply count_loc. Qed.

Lemma coord_agg_of_key (df : list incident) k : coord_of (agg_of_key df k) = k.1.
Proof. by destruct k as [[??]?]. Qed.

Lemma rows_at_closed_form (df : list incident) c :
  rows_at (aggregate_by_location_and_crime df) c
  = agg_of_key df <$> filter (λ k, k.1 = c) (group_keys df).
Proof.
  rewrite aggregate_closed_form. unfold rows_at.
  induction (group_keys df) as [|k ks IH]; [done|].
  rewrite fmap_cons, !filter_cons, coord_agg_of_key, IH.
  by destruct (decide (k.1 = c)).
Qed.

Lemma frequency_sum_closed_form (df : list incident) c :
  frequency_sum_at (aggregate_by_location_and_crime df) c
  = length (filter (λ r, is_Some (Crime r)) (incidents_at df c)).
Proof.
  unfold frequency_sum_at. rewrite rows_at_closed_form.
  rewrite <-(sum_count_by_category
               (snd <$> filter (λ k, k.1 = c) (group_keys df))).
  - rewrite <-!list_fmap_compose. f_equal. apply list_fmap_ext.
    intros _ k [Hk _]%list_elem_of_lookup_2%list_elem_of_filter.
    unfold compose. by rewrite frequency_agg_of_key, Hk.
  - apply NoDup_fmap_2_strong; [|apply NoDup_filter, NoDup_group_keys].
    intros [c1 cr1] [c2 cr2] [? _]%list_elem_of_filter [? _]%list_elem_of_filter ?.
    by simplify_eq/=.
  - intros r cr [Hl Hr]%list_elem_of_filter Hcr.
    apply list_elem_of_fmap. exists (c, cr). split; [done|].
    apply list_elem_of_filter. split; [done|].
    apply elem_of_group_keys. by exists r.
Qed.

(** C1, counterexample: an incident whose [Crime] entry is NaN is counted in
    [total_incidents] of its coordinate but belongs to no
    (lat, lon, Crime) group, so the frequencies at that coordinate add up to
    1 while the total is 2. *)
Lemma C1_counterexample : ¬ frequencies_add_up_to_total df_uncategorised.
Proof.
  intros H.
  specialize (H (AggRow (dec 4237 100) (dec (-7110) 100) "Theft" 1 2 None None None)).
  assert (1 = 2) as Habs; [|discriminate Habs].
  apply H. by_computation.
Qed.

(** C1 (amended): every aggregate row has [frequency <= total_incidents];
    [total_incidents] is the number of cleaned incidents at the row's
    coordinate; the frequencies of the aggregate rows at that coordinate add
    up to the number of those incidents that have a category; and they add
    up to [total_incidents] when every incident there has one. *)
Theorem C1_frequency_and_total (df : list incident) (row : agg_row) :
  row ∈ aggregate_by_location_and_crime df →
  frequency row ≤ total_incidents row
  ∧ total_incidents row = length (incidents_at df (coord_of row))
  ∧ frequency_sum_at (aggregate_by_location_and_crime df) (coord_of row)
    = length (filter (λ r, is_Some (Crime r)) (incidents_at df (coord_of row)))
  ∧ (Forall (λ r, is_Some (Crime r)) (incidents_at df (coord_of row)) →
     frequency_sum_at (aggregate_by_location_and_crime df) (coord_of row)
     = total_incidents row).
Proof.
  intros (k & Hk & ->)%elem_of_aggregate.
  rewrite coord_agg_of_key, frequency_agg_of_key, total_agg_of_key,
    frequency_sum_closed_form.
  split_and!; [apply length_filter|done|done|].
  intros Hall. f_equal. apply filter_all. by apply Forall_forall.
Qed.

Lemma C1_frequency_and_total_witness :
  let row := AggRow (dec 4237 100) (dec (-7110) 100) "Theft" 2 2 None None None in
  row ∈ aggregate_by_location_and_crime df_scenario
  ∧ frequency row ≤ total_incidents row
  ∧ frequency_sum_at (aggregate_by_location_and_crime df_scenario) (coord_of row)
    = total_incidents row.
Proof.
  intros row.
  assert (row ∈ aggregate_by_location_and_crime df_scenario) as Hrow
    by by_computation.
  destruct (C1_frequency_and_total df_scenario row Hrow) as (Hle & _ & _ & Hsum).
  split_and!; [done|done|].
  apply Hsum. by_computation.
Defined.

(** ** Loops in the [result] monad *)

Lemma for_each_Forall2 {A B} (f : A → result B) (l : list A) (ys : list B) :
  for_each f l = Ok ys → Forall2 (λ x y, f x = Ok y) l ys.
Proof.
  revert ys. induction l as [|x l IH]; intros ys; simpl.
  - intros [= <-]. constructor.
  - destruct (f x) as [y|e] eqn:Hx; [|done]. simpl.
    destruct (for_each f l) as [ys'|e] eqn:Hl; [|done]. simpl.
    intros [= <-]. constructor; [done|]. by apply IH.
Qed.

Lemma for_each_succeeds {A B} (f : A → result B) (l : list A) :
  (∀ x, x ∈ l → ∃ y, f x = Ok y) → ∃ ys, for_each f l = Ok ys.
Proof.
  induction l as [|x l IH]; intros Hf; simpl; [by eexists|].
  destruct (Hf x) as [y ->]; [left|].
  destruct IH as [ys ->]; [intros; apply Hf; by right|].
  by eexists.
Qed.

(** ** C4 and C10: the colour mapping *)

Lemma enumerate_snoc {A} (l : list A) (x : A) :
  enumerate (l ++ [x]) = enumerate l ++ [(length l, x)].
Proof. unfold enumerate. rewrite imap_app. simpl. by rewrite Nat.add_0_r. Qed.

Lemma dict_comprehension_snoc colors types c :
  dict_comprehension colors (types ++ [c])
  = <[c := colors !!! (length types `mod` length colors)]>
      (dict_comprehension colors types).
Proof. unfold dict_comprehension. by rewrite enumerate_snoc, foldl_app. Qed.

Lemma dict_comprehension_lookup colors types i c :
  NoDup types →
  types !! i = Some c →
  dict_comprehension colors types !! c
  = Some (colors !!! (i `mod` length colors)).
Proof.
  revert i. induction types as [|c' types IH] using rev_ind; intros i Hnd Hi.
  - done.
  - apply NoDup_app in Hnd as (Hnd & Hfresh & _).
    rewrite dict_comprehension_snoc.
    destruct (decide (i < length types)) as [Hlt|Hge].
    + rewrite lookup_app_l in Hi by done.
      rewrite lookup_insert_ne; [by apply IH|].
      intros ->. apply (Hfresh c); [by eapply list_elem_of_lookup_2|left].
    + assert (i = length types) as ->.
      { apply lookup_lt_Some in Hi. rewrite length_app in Hi. simpl in Hi. lia. }
      rewrite list_lookup_middle in Hi by done. simplify_eq.
      by rewrite lookup_insert_eq.
Qed.

Lemma palette_length : length get_color_palette = 20.
Proof. reflexivity. Qed.

Lemma palette_NoDup : NoDup get_color_palette.
Proof. by_computation. Qed.

Lemma color_map_lookup (aggregated : list agg_row) i c :
  crime_types aggregated !! i = Some c →
  color_map aggregated !! c = get_color_palette !! (i `mod` 20).
Proof.
  intros Hi. unfold color_map.
  rewrite (dict_comprehension_lookup _ _ i) by (apply NoDup_unique || done).
  rewrite palette_length. symmetry. apply list_lookup_lookup_total_lt.
  rewrite palette_length. apply Nat.mod_upper_bound. done.
Qed.

Lemma color_map_total (aggregated : list agg_row) (row : agg_row) :
  row ∈ aggregated → ∃ c, color_map aggregated !! a_Crime row = Some c.
Proof.
  intros Hrow.
  assert (a_Crime row ∈ crime_types aggregated) as Hin.
  { apply elem_of_unique. by apply list_elem_of_fmap_2. }
  apply list_elem_of_lookup in Hin as [i Hi].
  rewrite (color_map_lookup _ i) by done.
  apply lookup_lt_is_Some_2. rewrite palette_length.
  by apply Nat.mod_upper_bound.
Qed.



(** ** C2 and C3: the marker radius *)

Lemma foldl_min_spec (col : list nat) (x : nat) :
  foldl Nat.min x col ∈ x :: col ∧ ∀ t, t ∈ x :: col → foldl Nat.min x col ≤ t.
Proof.
  revert x. induction col as [|y col IH]; intros x; simpl.
  - split; [left|]. intros t ->%list_elem_of_singleton. done.
  - destruct (IH (x `min` y)) as [Hin Hle]. split.
    + apply elem_of_cons in Hin as [->|Hin]; [|by do 2 right].
      destruct (Nat.min_spec x y) as [[_ ->]|[_ ->]]; [left|right; left].
    + intros t Ht.
      assert (x `min` y ≤ t ∨ t ∈ col) as [Hxy|Htc].
      { apply elem_of_cons in Ht as [->|[->|Ht]%elem_of_cons]; [left|left|by right]; lia. }
      * etrans; [apply Hle; left|done].
      * apply Hle. by right.
Qed.

Lemma foldl_max_spec (col : list nat) (x : nat) :
  foldl Nat.max x col ∈ x :: col ∧ ∀ t, t ∈ x :: col → t ≤ foldl Nat.max x col.
Proof.
  revert x. induction col as [|y col IH]; intros x; simpl.
  - split; [left|]. intros t ->%list_elem_of_singleton. done.
  - destruct (IH (x `max` y)) as [Hin Hle]. split.
    + apply elem_of_cons in Hin as [->|Hin]; [|by do 2 right].
      destruct (Nat.max_spec x y) as [[_ ->]|[_ ->]]; [right; left|left].
    + intros t Ht.
      assert (t ≤ x `max` y ∨ t ∈ col) as [Hxy|Htc].
      { apply elem_of_cons in Ht as [->|[->|Ht]%elem_of_cons]; [left|left|by right]; lia. }
      * etrans; [done|apply Hle; left].
      * apply Hle. by right.
Qed.

Lemma series_min_spec (col : list nat) (m : nat) :
  series_min col = Some m → m ∈ col ∧ ∀ t, t ∈ col → m ≤ t.
Proof. destruct col; [done|]. intros [= <-]. apply foldl_min_spec. Qed.

Lemma series_max_spec (col : list nat) (m : nat) :
  series_max col = Some m → m ∈ col ∧ ∀ t, t ∈ col → t ≤ m.
Proof. destruct col; [done|]. intros [= <-]. apply foldl_max_spec. Qed.

Lemma marker_size_interpolate (min_total max_total total : nat) :
  min_total ≠ max_total →
  marker_size min_total max_total total
  = Finite (interpolate min_total max_total total).
Proof.
  intros Hne. unfold marker_size, true_divide, interpolate.
  rewrite decide_False by lia. simpl. by rewrite !Z2Qc_inj_sub.
Qed.

Lemma marker_size_degenerate (m : nat) : marker_size m m m = NaN.
Proof.
  unfold marker_size, true_divide.
  by rewrite !decide_True by lia.
Qed.

Section interpolation.
Local Open Scope Qc_scope.

Lemma width_pos (min_total max_total : nat) :
  (min_total < max_total)%nat →
  0 < Qc_of_Z (Z.of_nat max_total) - Qc_of_Z (Z.of_nat min_total).
Proof.
  intros. rewrite <-Z2Qc_inj_sub, <-Z2Qc_inj_0.
  apply (proj1 (Z2Qc_inj_lt _ _)). lia.
Qed.

Lemma interpolate_mono (min_total max_total t1 t2 : nat) :
  (min_total < max_total)%nat →
  (t1 ≤ t2)%nat →
  interpolate min_total max_total t1 ≤ interpolate min_total max_total t2.
Proof.
  intros Hrange Ht. unfold interpolate. apply Qcplus_le_mono_l.
  apply Qcmult_le_mono_nonneg_r.
  { rewrite <-Z2Qc_inj_0. by apply (proj1 (Z2Qc_inj_le _ _)). }
  apply Qcmult_le_mono_nonneg_r.
  { by apply Qclt_le_weak, Qcinv_pos, width_pos. }
  rewrite <-!Z2Qc_inj_sub. apply (proj1 (Z2Qc_inj_le _ _)). lia.
Qed.

Lemma interpolate_min (min_total max_total : nat) :
  interpolate min_total max_total min_total = Qc_of_Z 5.
Proof.
  unfold interpolate.
  replace (Qc_of_Z (Z.of_nat min_total) - Qc_of_Z (Z.of_nat min_total)) with 0.
  - unfold Qcdiv. by rewrite !Qcmult_0_l, Qcplus_0_r.
  - unfold Qcminus. by rewrite Qcplus_opp_r.
Qed.

Lemma interpolate_max (min_total max_total : nat) :
  (min_total < max_total)%nat →
  interpolate min_total max_total max_total = Qc_of_Z 25.
Proof.
  intros Hrange. unfold interpolate. unfold Qcdiv.
  rewrite Qcmult_inv_r, Qcmult_1_l.
  - by rewrite <-Z2Qc_inj_add.
  - intros Hw. pose proof (width_pos _ _ Hrange) as Hpos. rewrite Hw in Hpos.
    by apply Qclt_not_eq in Hpos.
Qed.

Lemma interpolate_bounds (min_total max_total t : nat) :
  (min_total < max_total)%nat →
  (min_total ≤ t ≤ max_total)%nat →
  Qc_of_Z 5 ≤ interpolate min_total max_total t ≤ Qc_of_Z 25.
Proof.
  intros Hrange [Hlo Hhi]. split.
  - rewrite <-(interpolate_min min_total max_total). by apply interpolate_mono.
  - rewrite <-(interpolate_max min_total max_total) by done.
    by apply interpolate_mono.
Qed.
End interpolation.

Lemma circle_marker_Ok cmap min_total max_total row m :
  circle_marker cmap min_total max_total row = Ok m →
  m_location m = coord_of row
  ∧ radius m = marker_size min_total max_total (total_incidents row)
  ∧ cmap !! a_Crime row = Some (color m)
  ∧ fillColor m = color m.
Proof.
  unfold circle_marker, getitem.
  destruct (cmap !! a_Crime row) as [c|]; [|done]. simpl.
  by intros [= <-].
Qed.

Lemma add_markers_Forall2 cmap (aggregated : list agg_row) min_total max_total ms :
  series_min (total_incidents <$> aggregated) = Some min_total →
  series_max (total_incidents <$> aggregated) = Some max_total →
  add_markers cmap aggregated = Ok ms →
  Forall2 (λ row m, circle_marker cmap min_total max_total row = Ok m)
          aggregated ms.
Proof.
  unfold add_markers. intros -> ->. apply for_each_Forall2.
Qed.

Lemma add_markers_succeeds (aggregated : list agg_row) :
  ∃ ms, add_markers (color_map aggregated) aggregated = Ok ms.
Proof.
  unfold add_markers.
  destruct (series_min _) as [mn|]; [|by eexists].
  destruct (series_max _) as [mx|]; [|by eexists].
  apply for_each_succeeds. intros row Hrow.
  destruct (color_map_total aggregated row Hrow) as [c Hc].
  unfold circle_marker, getitem. rewrite Hc. by eexists.
Qed.

Lemma legend_succeeds (aggregated : list agg_row) :
  ∃ lg, legend (color_map aggregated) aggregated = Ok lg.
Proof.
  unfold legend. apply for_each_succeeds. intros crime_type Hin.
  unfold sorted in Hin. rewrite merge_sort_Permutation in Hin.
  apply elem_of_unique, list_elem_of_fmap in Hin as (row & -> & Hrow).
  destruct (color_map_total aggregated row Hrow) as [c Hc].
  unfold getitem. rewrite Hc. by eexists.
Qed.

Lemma Forall2_zip {A B} (P : A → B → Prop) (l : list A) (k : list B) x y :
  Forall2 P l k → (x, y) ∈ zip l k → P x y.
Proof.
  induction 1 as [|x' y' l k Hxy _ IH]; simpl.
  - by intros ?%elem_of_nil.
  - intros [[= -> ->]|Hin]%elem_of_cons; auto.
Qed.

Lemma Forall2_with_left {A B} (P : A → B → Prop) (Q : A → Prop) l k :
  Forall2 P l k → (∀ x, x ∈ l → Q x) → Forall2 (λ x y, P x y ∧ Q x) l k.
Proof.
  induction 1 as [|x y l k Hxy _ IH]; intros HQ; constructor.
  - split; [done|]. apply HQ. left.
  - apply IH. intros. apply HQ. by right.
Qed.

Lemma total_in_range (aggregated : list agg_row) min_total max_total row :
  series_min (total_incidents <$> aggregated) = Some min_total →
  series_max (total_incidents <$> aggregated) = Some max_total →
  row ∈ aggregated →
  min_total ≤ total_incidents row ≤ max_total.
Proof.
  intros [_ Hmin]%series_min_spec [_ Hmax]%series_max_spec Hrow.
  split; [apply Hmin|apply Hmax]; by apply list_elem_of_fmap_2.
Qed.

(** When all totals coincide, the divisor [max_total - min_total] is zero
    and every radius is nan. *)
Lemma degenerate_radius_nan cmap (aggregated : list agg_row) m ms :
  series_min (total_incidents <$> aggregated) = Some m →
  series_max (total_incidents <$> aggregated) = Some m →
  add_markers cmap aggregated = Ok ms →
  Forall (λ mk, radius mk = NaN) ms.
Proof.
  intros Hmin Hmax Hms.
  pose proof (add_markers_Forall2 _ _ _ _ _ Hmin Hmax Hms) as Hall.
  assert (∀ row, row ∈ aggregated → total_incidents row = m) as Hconst.
  { intros row Hrow. pose proof (total_in_range _ _ _ _ Hmin Hmax Hrow). lia. }
  clear Hmin Hmax Hms.
  induction Hall as [|row mk l k Hmk _ IH]; constructor.
  - apply circle_marker_Ok in Hmk as (_ & -> & _).
    rewrite Hconst by left. apply marker_size_degenerate.
  - apply IH. intros. apply Hconst. by right.
Qed.

(** C2, evaluated on a frame with a single incident: the loop divides
    [0] by [max_total - min_total = 0]; numpy does not raise but the radius
    it yields is nan, not a number in the range 5 to 25. *)
Theorem C2_single_incident_radius_is_nan :
  let aggregated := aggregate_by_location_and_crime df_single in
  series_min (total_incidents <$> aggregated) = Some 1
  ∧ series_max (total_incidents <$> aggregated) = Some 1
  ∧ ∃ ms, add_markers (color_map aggregated) aggregated = Ok ms
        ∧ radius <$> ms = [NaN].
Proof.
  intros aggregated.
  assert (series_min (total_incidents <$> aggregated) = Some 1) as Hmin
    by by_computation.
  assert (series_max (total_incidents <$> aggregated) = Some 1) as Hmax
    by by_computation.
  split_and!; [done..|].
  destruct (add_markers_succeeds aggregated) as [ms Hms].
  exists ms. split; [done|].
  pose proof (degenerate_radius_nan _ _ _ _ Hmin Hmax Hms) as Hnan.
  pose proof (add_markers_Forall2 _ _ _ _ _ Hmin Hmax Hms) as Hlen%Forall2_length.
  assert (length aggregated = 1) as Hone by by_computation.
  rewrite Hone in Hlen.
  destruct ms as [|mk [|??]]; try discriminate Hlen.
  apply Forall_cons in Hnan as [Hr _]. simpl. by rewrite Hr.
Qed.

(** C3: with [min_total < max_total] the global minimum and maximum of
    [total_incidents], the loop succeeds, marker [i] belongs to row [i], its
    radius is the interpolation formula at the row's [total_incidents], the
    radius lies between 5 and 25, and rows with more incidents never get a
    smaller radius. *)
Theorem C3_marker_radius (aggregated : list agg_row) (min_total max_total : nat) :
  series_min (total_incidents <$> aggregated) = Some min_total →
  series_max (total_incidents <$> aggregated) = Some max_total →
  min_total < max_total →
  (min_total ∈ total_incidents <$> aggregated)
  ∧ (max_total ∈ total_incidents <$> aggregated)
  ∧ (∀ row, row ∈ aggregated → min_total ≤ total_incidents row ≤ max_total)
  ∧ ∃ ms, add_markers (color_map aggregated) aggregated = Ok ms
    ∧ Forall2 (λ row m,
         m_location m = coord_of row
         ∧ radius m = Finite (interpolate min_total max_total (total_incidents row))
         ∧ (Qc_of_Z 5 ≤ interpolate min_total max_total (total_incidents row)
            ≤ Qc_of_Z 25)%Qc) aggregated ms
    ∧ (∀ row1 m1 row2 m2,
         (row1, m1) ∈ zip aggregated ms → (row2, m2) ∈ zip aggregated ms →
         total_incidents row1 ≤ total_incidents row2 →
         float_le (radius m1) (radius m2)).
Proof.
  intros Hmin Hmax Hrange.
  destruct (series_min_spec _ _ Hmin) as [Hmin_in _].
  destruct (series_max_spec _ _ Hmax) as [Hmax_in _].
  split_and!; [done|done|by intros row; apply total_in_range|].
  destruct (add_markers_succeeds aggregated) as [ms Hms].
  exists ms. split; [done|].
  pose proof (add_markers_Forall2 _ _ _ _ _ Hmin Hmax Hms) as Hall.
  assert (Forall2 (λ row m,
      (m_location m = coord_of row
       ∧ radius m = Finite (interpolate min_total max_total (total_incidents row)))
      ∧ row ∈ aggregated) aggregated ms) as Hall'.
  { apply Forall2_with_left; [|done].
    eapply Forall2_impl; [exact Hall|]. intros row m Hm.
    apply circle_marker_Ok in Hm as (Hl & Hr & _). split; [done|].
    rewrite Hr. apply marker_size_interpolate. lia. }
  split.
  - eapply Forall2_impl; [exact Hall'|]. intros row m ((Hl & Hr) & Hrow).
    split_and!; [done|done|..];
      apply interpolate_bounds; try done; by eapply total_in_range.
  - intros row1 m1 row2 m2 H1 H2 Hle.
    destruct (Forall2_zip _ _ _ _ _ Hall' H1) as ((_ & ->) & _).
    destruct (Forall2_zip _ _ _ _ _ Hall' H2) as ((_ & ->) & _).
    simpl. by apply interpolate_mono.
Qed.

Lemma C3_marker_radius_witness :
  ∃ ms,
    add_markers (color_map (aggregate_by_location_and_crime df_scenario))
                (aggregate_by_location_and_crime df_scenario) = Ok ms
    ∧ Forall2 (λ row m,
         m_location m = coord_of row
         ∧ radius m = Finite (interpolate 1 2 (total_incidents row))
         ∧ (Qc_of_Z 5 ≤ interpolate 1 2 (total_incidents row) ≤ Qc_of_Z 25)%Qc)
        (aggregate_by_location_and_crime df_scenario) ms.
Proof.
  destruct (C3_marker_radius (aggregate_by_location_and_crime df_scenario) 1 2)
    as (_ & _ & _ & ms & Hms & Hall & _).
  - by_computation.
  - by_computation.
  - lia.
  - by exists ms.
Defined.

(** C10: every category of an aggregate row is a key of the colour mapping
    built from the rows, so the look-ups of the marker loop and of the legend
    loop succeed; and the rows produced by the aggregator have
    [frequency >= 1] and [total_incidents >= 1]. *)
Theorem C10_color_map_total :
  (∀ (aggregated : list agg_row) row, row ∈ aggregated →
     is_Some (color_map aggregated !! a_Crime row))
  ∧ (∀ aggregated : list agg_row,
       (∃ ms, add_markers (color_map aggregated) aggregated = Ok ms)
       ∧ (∃ lg, legend (color_map aggregated) aggregated = Ok lg))
  ∧ (∀ (df : list incident) row, row ∈ aggregate_by_location_and_crime df →
       1 ≤ frequency row ∧ 1 ≤ total_incidents row).
Proof.
  split_and!.
  - intros aggregated row Hrow.
    destruct (color_map_total aggregated row Hrow) as [c Hc]. by exists c.
  - intros aggregated. split; [apply add_markers_succeeds|apply legend_succeeds].
  - intros df row (k & Hk & ->)%elem_of_aggregate.
    assert (1 ≤ frequency (agg_of_key df k)) as Hf.
    { rewrite frequency_agg_of_key.
      apply elem_of_group_keys in Hk as (r & Hr & Hl & Hc).
      assert (r ∈ filter (λ r, Crime r = Some k.2) (incidents_at df k.1)) as Hin.
      { apply list_elem_of_filter. split; [done|]. by apply list_elem_of_filter. }
      destruct (filter _ _); [by apply elem_of_nil in Hin|simpl; lia]. }
    split; [done|].
    etrans; [exact Hf|].
    rewrite frequency_agg_of_key, total_agg_of_key. apply length_filter.
Qed.

Lemma C10_color_map_total_witness :
  let row := AggRow (dec 4238 100) (dec (-7111) 100) "Assault" 1 1 None None None in
  is_Some (color_map (aggregate_by_location_and_crime df_scenario) !! a_Crime row)
  ∧ 1 ≤ frequency row ∧ 1 ≤ total_incidents row.
Proof.
  intros row.
  destruct C10_color_map_total as (Hkey & _ & Hpos).
  assert (row ∈ aggregate_by_location_and_crime df_scenario) as Hrow
    by by_computation.
  split; [by apply Hkey|by apply (Hpos df_scenario)].
Defined.

(** ** C5: the loader *)

Section loader_facts.
Variable str_to_numeric : string → option Qc.
Abbreviation process_data := (process_data str_to_numeric).
Abbreviation with_coords := (with_coords str_to_numeric).
Abbreviation to_numeric := (to_numeric str_to_numeric).

Lemma to_numeric_None c :
  to_numeric c = None
  ↔ c = NaN_cell ∨ ∃ s, c = Str_cell s ∧ str_to_numeric s = None.
Proof. destruct c; naive_solver. Qed.

Lemma process_data_app l1 l2 :
  process_data (l1 ++ l2) = process_data l1 ++ process_data l2.
Proof. unfold process_data, dropna_raw. by rewrite filter_app, omap_app. Qed.

Lemma process_data_cons r l :
  process_data (r :: l) = process_data [r] ++ process_data l.
Proof. apply (process_data_app [r] l). Qed.

Lemma process_data_bad r : bad_coords str_to_numeric r → process_data [r] = [].
Proof.
  intros Hbad.
  assert (with_coords r = None) as Hnone.
  { unfold with_coords. destruct Hbad as [-> | ->]; [done|by case_match]. }
  unfold process_data, dropna_raw.
  rewrite filter_cons. case_decide; [|done].
  simpl. by rewrite Hnone.
Qed.

(** The first [dropna] removes nothing that the second would keep. *)
Lemma process_data_omap l : process_data l = omap with_coords l.
Proof.
  induction l as [|r l IH]; [done|].
  rewrite process_data_cons, IH. simpl.
  unfold process_data, dropna_raw. rewrite filter_cons.
  case_decide as Hna; simpl.
  - by destruct (with_coords r).
  - assert (with_coords r = None) as ->; [|done].
    unfold with_coords.
    destruct (Reporting_Area_Lat r) eqn:Hlat; [done|..];
      (destruct (Reporting_Area_Lon r) eqn:Hlon; [by case_match|..]);
      exfalso; apply Hna; rewrite ?Hlat, ?Hlon; by split.
Qed.

Lemma elem_of_process_data i l :
  i ∈ process_data l ↔ ∃ r, r ∈ l ∧ with_coords r = Some i.
Proof. rewrite process_data_omap. apply list_elem_of_omap. Qed.
End loader_facts.

(** C5: a row whose latitude or longitude entry is absent or not numeric
    is dropped: the cleaned frame, and so the aggregate, is the one obtained
    without the row; every cleaned incident stems from a row with two
    numeric coordinates; and of the two rows of the example only the first
    survives. *)
Theorem C5_bad_rows_dropped (str_to_numeric : string → option Qc) :
  (∀ before bad after,
     bad_coords str_to_numeric bad →
     process_data str_to_numeric (before ++ bad :: after)
     = process_data str_to_numeric (before ++ after)
     ∧ aggregate_by_location_and_crime
         (process_data str_to_numeric (before ++ bad :: after))
       = aggregate_by_location_and_crime
           (process_data str_to_numeric (before ++ after)))
  ∧ (∀ df i, i ∈ process_data str_to_numeric df →
       ∃ r, r ∈ df
          ∧ to_numeric str_to_numeric (Reporting_Area_Lat r) = Some (lat i)
          ∧ to_numeric str_to_numeric (Reporting_Area_Lon r) = Some (lon i))
  ∧ process_data str_to_numeric
      [ raw_bare (Float_cell (dec 4237 100)) (Float_cell (dec (-7110) 100)) (Some "A");
        raw_bare NaN_cell (Float_cell (dec (-7110) 100)) (Some "B") ]
    = [ bare (dec 4237 100) (dec (-7110) 100) (Some "A") ].
Proof.
  split_and!.
  - intros before bad after Hbad.
    assert (process_data str_to_numeric (before ++ bad :: after)
            = process_data str_to_numeric (before ++ after)) as ->; [|done].
    rewrite !process_data_app, (process_data_cons _ bad).
    by rewrite process_data_bad.
  - intros df i (r & Hr & Hi)%elem_of_process_data. exists r.
    split; [done|]. unfold with_coords in Hi.
    destruct (to_numeric _ (Reporting_Area_Lat r)); [|done].
    destruct (to_numeric _ (Reporting_Area_Lon r)); [|done].
    by simplify_eq/=.
  - reflexivity.
Qed.

Lemma C5_bad_rows_dropped_witness :
  let good := raw_bare (Float_cell (dec 4237 100)) (Float_cell (dec (-7110) 100))
                       (Some "A") in
  let bad := raw_bare (Str_cell "n/a") (Float_cell (dec (-7110) 100)) (Some "B") in
  bad_coords (λ _, None) bad
  ∧ process_data (λ _, None) ([good] ++ bad :: [good])
    = process_data (λ _, None) ([good] ++ [good]).
Proof.
  intros good bad.
  assert (bad_coords (λ _, None) bad) as Hbad by (left; reflexivity).
  split; [done|].
  destruct (C5_bad_rows_dropped (λ _, None)) as (Hdrop & _).
  by destruct (Hdrop [good] bad [good] Hbad).
Defined.

(** ** C6: the descriptive fields *)

Lemma first_first_present {A} (col : list (option A)) :
  first_present col (first col).
Proof.
  unfold first. induction col as [|[a|] col IH]; simpl.
  - by intros x ?%elem_of_nil.
  - exists 0. split; [done|]. lia.
  - change (first_present (None :: col) (head (omap id col))).
    destruct (head (omap id col)) as [a|]; unfold first_present in *.
    + destruct IH as (i & Hi & Hlt). exists (S i). split; [done|].
      intros [|j] Hj; [done|]. apply Hlt. lia.
    + intros x [->|Hx]%elem_of_cons; [done|by apply IH].
Qed.

Lemma first_head {A} (col : list (option A)) (a : A) :
  head col = Some (Some a) → first col = Some a.
Proof. by destruct col as [|[?|] ?]; intros [= ->]. Qed.

(** C6, counterexample: [GroupBy.first] skips NaN entries, column by column.
    The first incident at the coordinate has no neighbourhood, so the
    aggregate row takes the neighbourhood of the second incident and the
    location label of the first. *)
Lemma C6_counterexample : ¬ fields_of_first_incident df_late_neighborhood.
Proof.
  intros H.
  destruct (H (AggRow (dec 4237 100) (dec (-7110) 100) "Theft" 2 2
                 (Some "Area 4") (Some "100 Main St") None))
    as (r & Hr & Hnb & _).
  - by_computation.
  - vm_compute in Hr. injection Hr as <-. discriminate Hnb.
Qed.

(** C6 (amended): each of the three fields of an aggregate row is, for its
    own column, the first entry that is present among the incidents at the
    row's coordinate, in the order of the cleaned frame, and is absent only
    when no incident there has the entry; a field that the first incident at
    the coordinate has is taken from that incident. *)
Theorem C6_fields_first_present (df : list incident) (row : agg_row) :
  row ∈ aggregate_by_location_and_crime df →
  let g := incidents_at df (coord_of row) in
  (∃ r, head g = Some r)
  ∧ first_present (Neighborhood <$> g) (a_Neighborhood row)
  ∧ first_present (Location <$> g) (a_Location row)
  ∧ first_present (Reporting_Area <$> g) (a_Reporting_Area row)
  ∧ (∀ r, head g = Some r →
       (is_Some (Neighborhood r) → a_Neighborhood row = Neighborhood r)
       ∧ (is_Some (Location r) → a_Location row = Location r)
       ∧ (is_Some (Reporting_Area r) → a_Reporting_Area row = Reporting_Area r)).
Proof.
  intros (k & Hk & ->)%elem_of_aggregate g. subst g.
  rewrite coord_agg_of_key. unfold agg_of_key.
  cbn [a_Neighborhood a_Location a_Reporting_Area].
  split_and!; try apply first_first_present.
  - apply elem_of_group_keys in Hk as (r & Hr & Hl & _).
    assert (r ∈ incidents_at df k.1) as Hin by by apply list_elem_of_filter.
    destruct (incidents_at df k.1) as [|r0 ?]; [by apply elem_of_nil in Hin|].
    by exists r0.
  - intros r Hr.
    split_and!; intros [v Hv]; rewrite Hv; apply first_head;
      destruct (incidents_at df k.1); simplify_eq/=; by rewrite Hv.
Qed.

Lemma C6_fields_first_present_witness :
  let row := AggRow (dec 4237 100) (dec (-7110) 100) "Theft" 2 2
               (Some "Area 4") (Some "100 Main St") None in
  row ∈ aggregate_by_location_and_crime df_late_neighborhood
  ∧ first_present
      (Neighborhood <$> incidents_at df_late_neighborhood (coord_of row))
      (a_Neighborhood row).
Proof.
  intros row.
  assert (row ∈ aggregate_by_location_and_crime df_late_neighborhood) as Hrow
    by by_computation.
  split; [done|].
  by destruct (C6_fields_first_present df_late_neighborhood row Hrow)
    as (_ & Hnb & _).
Defined.

(** ** C7: the legend *)

Lemma ascii_compare_Lt_trans (a b c : Ascii.ascii) :
  Ascii.compare a b = Lt → Ascii.compare b c = Lt → Ascii.compare a c = Lt.
Proof.
  unfold Ascii.compare. rewrite !N.compare_lt_iff. apply N.lt_trans.
Qed.

Lemma string_compare_Lt_trans (s1 s2 s3 : string) :
  String.compare s1 s2 = Lt → String.compare s2 s3 = Lt →
  String.compare s1 s3 = Lt.
Proof.
  revert s2 s3. induction s1 as [|a s1 IH]; intros [|b s2] [|c s3]; simpl;
    try done.
  destruct (Ascii.compare a b) eqn:Hab; [|
    |done].
  - apply Ascii.compare_eq_iff in Hab as ->.
    destruct (Ascii.compare b c); [apply IH|done|done].
  - intros _. destruct (Ascii.compare b c) eqn:Hbc; [| |done].
    + apply Ascii.compare_eq_iff in Hbc as <-. by rewrite Hab.
    + by rewrite (ascii_compare_Lt_trans a b c).
Qed.

Lemma string_le_alt (s1 s2 : string) :
  string_le s1 s2 ↔ s1 = s2 ∨ String.compare s1 s2 = Lt.
Proof.
  unfold string_le, String.leb.
  destruct (String.compare s1 s2) eqn:Hc.
  - apply String.compare_eq_iff in Hc. naive_solver.
  - naive_solver.
  - split; [done|]. intros [->|?]; [|done].
    assert (String.compare s2 s2 = Eq) as Hrefl; [|congruence].
    clear Hc. induction s2 as [|a s IH]; simpl; [done|].
    unfold Ascii.compare. by rewrite N.compare_refl.
Qed.

Global Instance string_le_trans : Transitive string_le.
Proof.
  intros s1 s2 s3. rewrite !string_le_alt.
  intros [->|H12] [->|H23]; eauto using string_compare_Lt_trans.
Qed.

Global Instance string_le_total : Total string_le.
Proof. intros s1 s2. apply String.leb_total. Qed.

Lemma sorted_StronglySorted (l : list string) : StronglySorted string_le (sorted l).
Proof. apply StronglySorted_merge_sort; apply _. Qed.

Lemma legend_Forall2 cmap (aggregated : list agg_row) lg :
  legend cmap aggregated = Ok lg →
  Forall2 (λ crime_type e,
      l_crime_type e = crime_type
      ∧ cmap !! crime_type = Some (l_color e)
      ∧ l_count e = length (filter (λ row, a_Crime row = crime_type) aggregated))
    (sorted (crime_types aggregated)) lg.
Proof.
  intros Hlg%for_each_Forall2.
  eapply Forall2_impl; [exact Hlg|]. intros crime_type e. simpl.
  unfold getitem. destruct (cmap !! crime_type); [|done]. simpl.
  by intros [= <-].
Qed.

Lemma legend_crime_types cmap (aggregated : list agg_row) lg :
  legend cmap aggregated = Ok lg →
  l_crime_type <$> lg = sorted (crime_types aggregated).
Proof.
  intros Hall%legend_Forall2.
  induction Hall as [|c e l k (Hc & _) _ IH]; [done|].
  csimpl. by rewrite Hc, IH.
Qed.

(** The aggregate rows of a category lie at pairwise distinct coordinates. *)
Lemma category_coords_NoDup (df : list incident) (c : string) :
  NoDup (coord_of <$> filter (λ row, a_Crime row = c)
                        (aggregate_by_location_and_crime df)).
Proof.
  rewrite aggregate_closed_form.
  pose proof (NoDup_group_keys df) as Hnd.
  induction Hnd as [|k ks Hk _ IH]; [constructor|].
  rewrite fmap_cons, filter_cons.
  case_decide as Hc; [|done].
  rewrite fmap_cons. constructor; [|done].
  rewrite coord_agg_of_key. intros Hin.
  apply list_elem_of_fmap in Hin as (row & Hco & Hrow).
  apply list_elem_of_filter in Hrow as (Hcr & Hrow).
  apply list_elem_of_fmap in Hrow as (k' & -> & Hk').
  rewrite coord_agg_of_key in Hco.
  apply Hk. destruct k as [c1 cr1], k' as [c2 cr2].
  unfold agg_of_key in Hc, Hcr. simpl in *. by subst.
Qed.

(** The same count, read off the cleaned frame: the distinct coordinates at
    which an incident of the category was reported. *)
Lemma category_coords_incidents (df : list incident) (c : string) :
  coord_of <$> filter (λ row, a_Crime row = c) (aggregate_by_location_and_crime df)
  ≡ₚ unique (loc <$> filter (λ r, Crime r = Some c) df).
Proof.
  apply NoDup_Permutation; [apply category_coords_NoDup|apply NoDup_unique|].
  intros x. rewrite elem_of_unique, !list_elem_of_fmap. split.
  - intros (row & -> & [Hc Hrow]%list_elem_of_filter).
    apply elem_of_aggregate in Hrow as (k & Hk & ->).
    apply elem_of_group_keys in Hk as (r & Hr & Hl & Hcr).
    exists r. rewrite coord_agg_of_key. split; [done|].
    apply list_elem_of_filter. split; [|done].
    destruct k as [??]. unfold agg_of_key in Hc. simpl in *. by subst.
  - intros (r & -> & [Hc Hr]%list_elem_of_filter).
    exists (agg_of_key df (loc r, c)). rewrite coord_agg_of_key.
    split; [done|]. apply list_elem_of_filter. split; [done|].
    apply elem_of_aggregate. exists (loc r, c). split; [|done].
    apply elem_of_group_keys. by exists r.
Qed.

(** C7: the legend lists the distinct categories of the aggregate rows, each
    once, in ascending string order, each with the colour the mapping gives
    it and with the number of distinct coordinates at which the aggregate has
    a row of that category. *)
Theorem C7_legend (df : list incident) :
  let aggregated := aggregate_by_location_and_crime df in
  ∃ lg, legend (color_map aggregated) aggregated = Ok lg
    ∧ l_crime_type <$> lg = sorted (crime_types aggregated)
    ∧ StronglySorted string_le (l_crime_type <$> lg)
    ∧ NoDup (l_crime_type <$> lg)
    ∧ (∀ c, c ∈ l_crime_type <$> lg ↔ ∃ row, row ∈ aggregated ∧ a_Crime row = c)
    ∧ (∀ e, e ∈ lg →
         color_map aggregated !! l_crime_type e = Some (l_color e)
         ∧ l_count e
           = length (unique (coord_of <$>
               filter (λ row, a_Crime row = l_crime_type e) aggregated))
         ∧ l_count e
           = length (unique (loc <$>
               filter (λ r, Crime r = Some (l_crime_type e)) df))).
Proof.
  intros aggregated.
  destruct (legend_succeeds aggregated) as [lg Hlg].
  exists lg. split; [done|].
  pose proof (legend_crime_types _ _ _ Hlg) as Htypes.
  pose proof (legend_Forall2 _ _ _ Hlg) as Hall.
  split_and!.
  - done.
  - rewrite Htypes. apply sorted_StronglySorted.
  - rewrite Htypes. unfold sorted. rewrite merge_sort_Permutation.
    apply NoDup_unique.
  - intros c. rewrite Htypes. unfold sorted.
    rewrite merge_sort_Permutation. unfold crime_types.
    rewrite elem_of_unique, list_elem_of_fmap. naive_solver.
  - intros e He.
    apply list_elem_of_lookup in He as [i Hi].
    destruct (Forall2_lookup_r _ _ _ _ _ Hall Hi) as (c & _ & <- & Hcol & Hcount).
    split; [done|].
    assert (l_count e
            = length (coord_of <$>
                filter (λ row, a_Crime row = l_crime_type e) aggregated))
      as Hlen by by rewrite Hcount, length_fmap.
    split.
    + unfold aggregated.
      by rewrite unique_NoDup_id by apply category_coords_NoDup.
    + rewrite Hlen. unfold aggregated.
      by rewrite category_coords_incidents.
Qed.

Lemma C7_legend_witness :
  let aggregated := aggregate_by_location_and_crime df_scenario in
  let e := LegendEntry "Assault" "#4ECDC4" 1 in
  ∃ lg, legend (color_map aggregated) aggregated = Ok lg
      ∧ e ∈ lg
      ∧ l_count e
        = length (unique (coord_of <$>
            filter (λ row, a_Crime row = l_crime_type e) aggregated)).
Proof.
  intros aggregated e.
  destruct (C7_legend df_scenario) as (lg & Hlg & _ & _ & _ & _ & Hcount).
  exists lg. split; [done|].
  assert (e ∈ lg) as He.
  { assert (legend (color_map aggregated) aggregated
            = Ok [e; LegendEntry "Theft" "#FF6B6B" 1]) as Heval
      by (vm_compute; reflexivity).
    fold aggregated in Hlg. rewrite Heval in Hlg. injection Hlg as <-. left. }
  split; [done|]. by destruct (Hcount e He) as (_ & Hn & _).
Defined.

(** ** C8: the scenario of the specification *)

(** C8, counterexample: the legend line is built with the fixed word
    "locations", so for one location it reads "(1 locations)". *)
Lemma C8_counterexample : ¬ legend_lines_as_specified df_scenario.
Proof.
  intros (lg & Hlg & Htext).
  vm_compute in Hlg. injection Hlg as <-.
  vm_compute in Htext. discriminate Htext.
Qed.

Lemma markers_locations cmap (aggregated : list agg_row) ms :
  add_markers cmap aggregated = Ok ms →
  m_location <$> ms = coord_of <$> aggregated.
Proof.
  unfold add_markers.
  destruct (series_min _) as [mn|] eqn:Hmin.
  - destruct (series_max _) as [mx|] eqn:Hmax.
    + intros Hall%for_each_Forall2. clear Hmin Hmax.
      induction Hall as [|row m l k Hm _ IH]; [done|].
      apply circle_marker_Ok in Hm as (Hl & _). csimpl. by rewrite Hl, IH.
    + by destruct aggregated.
  - destruct aggregated; [|done]. by intros [= <-].
Qed.

(** C8 (amended): for three incidents with the coordinates and categories of
    the scenario, whatever their other fields, the aggregate has exactly the
    two rows of the specification, in this order; the map has exactly two
    markers, marker [i] at the coordinate of row [i]; and the legend lines
    read "Assault (1 locations)" and "Theft (1 locations)". *)
Theorem C8_scenario (df : list incident) :
  place_and_crime <$> df = scenario →
  let aggregated := aggregate_by_location_and_crime df in
  key_and_counts <$> aggregated
  = [ (dec 4237 100, dec (-7110) 100, "Theft", 2, 2);
      (dec 4238 100, dec (-7111) 100, "Assault", 1, 1) ]
  ∧ (∃ ms, add_markers (color_map aggregated) aggregated = Ok ms
         ∧ length ms = 2
         ∧ m_location <$> ms = coord_of <$> aggregated)
  ∧ (∃ lg, legend (color_map aggregated) aggregated = Ok lg
         ∧ legend_text <$> lg = ["Assault (1 locations)"; "Theft (1 locations)"]).
Proof.
  intros Hdf aggregated.
  destruct df as [|[la1 lo1 c1 ? ? ? ?] [|[la2 lo2 c2 ? ? ? ?]
    [|[la3 lo3 c3 ? ? ? ?] [|? ?]]]]; try discriminate Hdf.
  unfold scenario, place_and_crime in Hdf. simpl in Hdf.
  injection Hdf as -> -> -> -> -> -> -> -> ->.
  assert (key_and_counts <$> aggregated
          = [ (dec 4237 100, dec (-7110) 100, "Theft", 2, 2);
              (dec 4238 100, dec (-7111) 100, "Assault", 1, 1) ]) as Hrows
    by (vm_compute; reflexivity).
  split_and!.
  - done.
  - destruct (add_markers_succeeds aggregated) as [ms Hms].
    exists ms. pose proof (markers_locations _ _ _ Hms) as Hloc.
    split_and!; [done| |done].
    apply (f_equal length) in Hloc. apply (f_equal length) in Hrows.
    rewrite !length_fmap in Hloc. rewrite length_fmap in Hrows.
    rewrite Hloc. exact Hrows.
  - destruct (legend_succeeds aggregated) as [lg Hlg].
    exists lg. split; [done|].
    vm_compute in Hlg. injection Hlg as <-. vm_compute. reflexivity.
Qed.

Lemma C8_scenario_witness :
  place_and_crime <$> df_scenario = scenario
  ∧ key_and_counts <$> aggregate_by_location_and_crime df_scenario
    = [ (dec 4237 100, dec (-7110) 100, "Theft", 2, 2);
        (dec 4238 100, dec (-7111) 100, "Assault", 1, 1) ].
Proof.
  assert (place_and_crime <$> df_scenario = scenario) as Hdf by reflexivity.
  split; [done|].
  by destruct (C8_scenario df_scenario Hdf) as (Hrows & _).
Defined.

(** ** C9: failures and the output file *)


Section script_facts.
Variable str_to_numeric : string → option Qc.
Variable disk : string → source.
Variable writable : string → bool.

(** The outcome of the loader depends on the file and its header only. *)
Lemma load_outcome csv_path :
  match disk csv_path with
  | Missing =>
      load_and_process_data str_to_numeric disk csv_path = Raise FileNotFoundError
  | Unparseable =>
      load_and_process_data str_to_numeric disk csv_path = Raise ParserError
  | Parsed f =>
      if decide ("Reporting Area Lat" ∈ csv_columns f) then
        if decide ("Reporting Area Lon" ∈ csv_columns f) then
          load_and_process_data str_to_numeric disk csv_path
          = Ok (Frame (csv_columns f ++ ["lat"; "lon"])
                      (process_data str_to_numeric (csv_rows f)))
        else load_and_process_data str_to_numeric disk csv_path
             = Raise (KeyError "Reporting Area Lon")
      else load_and_process_data str_to_numeric disk csv_path
           = Raise (KeyError "Reporting Area Lat")
  end.
Proof.
  unfold load_and_process_data, read_csv.
  destruct (disk csv_path) as [| |f]; [done..|].
  unfold require_column. simpl.
  destruct (decide ("Reporting Area Lat" ∈ csv_columns f)); simpl; [|done].
  by destruct (decide ("Reporting Area Lon" ∈ csv_columns f)).
Qed.

Lemma main_create_fails out e :
  create_cambridge_crime_map str_to_numeric disk input_path = Raise e →
  main str_to_numeric disk writable out = (Raise e, out).
Proof. unfold main. fold input_path. by intros ->. Qed.

Lemma create_load_fails csv_path e :
  load_and_process_data str_to_numeric disk csv_path = Raise e →
  create_cambridge_crime_map str_to_numeric disk csv_path = Raise e.
Proof. unfold create_cambridge_crime_map. by intros ->. Qed.

Lemma main_outcome out :
  match create_cambridge_crime_map str_to_numeric disk input_path with
  | Raise e => main str_to_numeric disk writable out = (Raise e, out)
  | Ok m =>
      if writable output_path then
        main str_to_numeric disk writable out
        = (summary str_to_numeric disk input_path, (output_path, m) :: out)
      else main str_to_numeric disk writable out = (Raise PermissionError, out)
  end.
Proof.
  unfold main, save. fold input_path output_path.
  destruct (create_cambridge_crime_map _ _ _) as [m|e]; [|done].
  by destruct (writable output_path).
Qed.
End script_facts.




(** * Further properties *)

(** ** The order of the group keys *)

Global Instance coord_le_total : Total coord_le.
Proof.
  intros [a b] [c d]. unfold coord_le. simpl.
  destruct (Qc_dec a c) as [[Hlt|Hgt]| ->]; [by left; left|by right; left|].
  destruct (Qclt_le_dec d b) as [Hlt|Hle].
  - right. right. split; [done|]. by apply Qclt_le_weak.
  - left. by right.
Qed.

Global Instance coord_le_trans : Transitive coord_le.
Proof.
  intros [a b] [c d] [e f]. unfold coord_le. simpl.
  intros [H1|[-> H1]] [H2|[-> H2]].
  - left. by eapply Qclt_trans.
  - by left.
  - by left.
  - right. split; [done|]. by eapply Qcle_trans.
Qed.

Global Instance coord_le_antisym : AntiSymm (=) coord_le.
Proof.
  intros [a b] [c d]. unfold coord_le. simpl.
  intros [H1|[-> H1]] [H2|[Heq H2]].
  - destruct (Qclt_not_le _ _ H1). by apply Qclt_le_weak.
  - subst. by destruct (Qclt_not_eq _ _ H1).
  - by destruct (Qclt_not_eq _ _ H2).
  - f_equal. by apply Qcle_antisym.
Qed.

Global Instance string_le_antisym : AntiSymm (=) string_le.
Proof. intros s1 s2. apply String.leb_antisym. Qed.

Global Instance key_le_total : Total key_le.
Proof.
  intros [c1 s1] [c2 s2]. unfold key_le. simpl.
  destruct (decide (c1 = c2)) as [->|Hne].
  - destruct (total string_le s1 s2); [left|right]; by right.
  - destruct (total coord_le c1 c2); [left|right]; left; by split.
Qed.

Global Instance key_le_trans : Transitive key_le.
Proof.
  intros [c1 s1] [c2 s2] [c3 s3]. unfold key_le. simpl.
  intros [[H1 Hn1]|[-> H1]] [[H2 Hn2]|[-> H2]].
  - left. split; [by etrans|]. intros ->.
    apply Hn1. by apply (anti_symm coord_le).
  - left. by split.
  - left. by split.
  - right. split; [done|]. by etrans.
Qed.

Global Instance key_le_antisym : AntiSymm (=) key_le.
Proof.
  intros [c1 s1] [c2 s2]. unfold key_le. simpl.
  intros [[H1 Hn1]|[-> H1]] [[H2 Hn2]|[Heq H2]]; try done.
  - destruct Hn1. by apply (anti_symm coord_le).
  - f_equal. by apply (anti_symm string_le).
Qed.

Lemma group_keys_sorted (df : list incident) :
  StronglySorted key_le (group_keys df).
Proof. apply StronglySorted_merge_sort; apply _. Qed.

Lemma key_of_agg_of_key (df : list incident) k : key_of (agg_of_key df k) = k.
Proof. by destruct k as [[??]?]. Qed.

Lemma keys_of_aggregate (df : list incident) :
  key_of <$> aggregate_by_location_and_crime df = group_keys df.
Proof.
  rewrite aggregate_closed_form, <-list_fmap_compose.
  rewrite <-(list_fmap_id (group_keys df)) at 2.
  apply list_fmap_ext. intros _ k _. apply key_of_agg_of_key.
Qed.

(** X1: the aggregate has one row per distinct (lat, lon, Crime) triple of
    the cleaned frame: the keys of its rows are pairwise distinct, and a
    triple is the key of a row exactly when some incident carries it. *)
Theorem X1_one_row_per_key (df : list incident) :
  NoDup (key_of <$> aggregate_by_location_and_crime df)
  ∧ ∀ la lo c,
      (la, lo, c) ∈ key_of <$> aggregate_by_location_and_crime df
      ↔ ∃ r, r ∈ df ∧ lat r = la ∧ lon r = lo ∧ Crime r = Some c.
Proof.
  rewrite keys_of_aggregate. split; [apply NoDup_group_keys|].
  intros la lo c. rewrite elem_of_group_keys. unfold loc. simpl.
  split; intros (r & Hr & H); exists r; naive_solver.
Qed.

(** X2: the rows of the aggregate come in ascending order of their key:
    by latitude, then by longitude, then by category. *)
Theorem X2_rows_sorted_by_key (df : list incident) :
  StronglySorted key_le (key_of <$> aggregate_by_location_and_crime df).
Proof. rewrite keys_of_aggregate. apply group_keys_sorted. Qed.

Lemma unique_Permutation `{EqDecision A} (l k : list A) :
  l ≡ₚ k → unique l ≡ₚ unique k.
Proof.
  intros Hperm. apply NoDup_Permutation; [apply NoDup_unique..|].
  intros x. by rewrite !elem_of_unique, Hperm.
Qed.

Lemma group_keys_Permutation (df df' : list incident) :
  df ≡ₚ df' → group_keys df = group_keys df'.
Proof.
  intros Hperm.
  apply (StronglySorted_unique key_le); [apply group_keys_sorted..|].
  unfold group_keys. rewrite !merge_sort_Permutation.
  apply unique_Permutation. by rewrite Hperm.
Qed.

Lemma key_and_counts_agg_of_key (df : list incident) k :
  key_and_counts (agg_of_key df k)
  = (k.1.1, k.1.2, k.2,
     length (filter (λ k', k' = k) (omap key3 df)),
     length (filter (λ c, c = k.1) (loc <$> df))).
Proof. done. Qed.

(** X3: the keys and the two counts of the aggregate rows do not depend on
    the order of the incidents: reordering the cleaned frame yields the same
    rows up to the descriptive fields. *)
Theorem X3_counts_order_independent (df df' : list incident) :
  df ≡ₚ df' →
  key_and_counts <$> aggregate_by_location_and_crime df
  = key_and_counts <$> aggregate_by_location_and_crime df'.
Proof.
  intros Hperm. rewrite !aggregate_closed_form, <-!list_fmap_compose.
  rewrite (group_keys_Permutation df df') by done.
  apply list_fmap_ext. intros _ k _. unfold compose.
  rewrite !key_and_counts_agg_of_key. by rewrite Hperm.
Qed.

Lemma X3_counts_order_independent_witness :
  df_mixed ≡ₚ reverse df_mixed
  ∧ key_and_counts <$> aggregate_by_location_and_crime df_mixed
    = key_and_counts <$> aggregate_by_location_and_crime (reverse df_mixed).
Proof.
  assert (df_mixed ≡ₚ reverse df_mixed) as Hperm
    by (symmetry; apply reverse_Permutation).
  split; [done|]. by apply X3_counts_order_independent.
Defined.

(** ** Conservation of counts *)

(** Counting the elements of [l] class by class, over a duplicate-free list
    of classes that covers [l], counts every element once. *)
Lemma sum_count_partition {A} `{EqDecision B} (f : A → B) (cs : list B)
    (l : list A) :
  NoDup cs →
  (∀ x, x ∈ l → f x ∈ cs) →
  sum_list ((λ c, length (filter (λ x, f x = c) l)) <$> cs) = length l.
Proof.
  intros Hcs. induction l as [|x l IH]; intros Hcov.
  - apply sum_list_zero.
  - rewrite (list_fmap_ext _
      (λ c, (if decide (f x = c) then 1 else 0)
            + length (filter (λ x, f x = c) l))).
    2:{ intros _ c _. rewrite filter_cons. by destruct (decide (f x = c)). }
    rewrite sum_list_fmap_plus, sum_list_indicator by done.
    rewrite decide_True by (apply Hcov; left).
    rewrite IH by (intros; apply Hcov; by right). done.
Qed.

Lemma length_omap_key3 (df : list incident) :
  length (omap key3 df) = length (filter (λ r, is_Some (Crime r)) df).
Proof.
  induction df as [|r df IH]; [done|].
  assert (omap key3 (r :: df)
          = match Crime r with
            | Some cr => (loc r, cr) :: omap key3 df
            | None => omap key3 df
            end) as ->.
  { cbn. unfold key3 at 1. by destruct (Crime r). }
  rewrite filter_cons. destruct (Crime r) as [c|].
  - rewrite decide_True by done. cbn [length]. by rewrite IH.
  - rewrite decide_False by (by intros [??]). done.
Qed.

(** X4: the frequencies of all aggregate rows add up to the number of
    cleaned incidents that have a category, and the per-location totals of
    [location_totals] add up to the number of cleaned incidents: no incident
    is counted twice, and only those without a category are left out of the
    frequencies. *)
Theorem X4_counts_are_conserved (df : list incident) :
  sum_list (frequency <$> aggregate_by_location_and_crime df)
  = length (filter (λ r, is_Some (Crime r)) df)
  ∧ sum_list (snd <$> location_totals df) = length df.
Proof.
  split.
  - rewrite aggregate_closed_form, <-list_fmap_compose, <-length_omap_key3.
    rewrite <-(sum_count_partition id (group_keys df) (omap key3 df)).
    + reflexivity.
    + apply NoDup_group_keys.
    + intros k Hk. by apply elem_of_sorted_unique.
  - unfold location_totals, groupby_size.
    rewrite <-list_fmap_compose.
    rewrite <-(length_fmap loc df).
    rewrite <-(sum_count_partition id
                 (merge_sort coord_le (unique (loc <$> df))) (loc <$> df)).
    + reflexivity.
    + apply NoDup_sorted_unique.
    + intros c Hc. by apply elem_of_sorted_unique.
Qed.

(** X5: the aggregate is empty exactly when no cleaned incident has a
    category; in particular it is empty for an empty frame, and incidents
    without a category alone produce no marker and no legend line. *)
Theorem X5_empty_aggregate (df : list incident) :
  aggregate_by_location_and_crime df = [] ↔ ∀ r, r ∈ df → Crime r = None.
Proof.
  split.
  - intros Hnil r Hr. destruct (Crime r) as [c|] eqn:Hc; [|done].
    assert ((loc r, c) ∈ group_keys df) as Hk.
    { apply elem_of_group_keys. by exists r. }
    assert (agg_of_key df (loc r, c) ∈ aggregate_by_location_and_crime df)
      as Hrow by (apply elem_of_aggregate; eauto).
    rewrite Hnil in Hrow. by apply elem_of_nil in Hrow.
  - intros Hnone.
    destruct (aggregate_by_location_and_crime df) as [|row rows] eqn:Hagg;
      [done|].
    assert (row ∈ aggregate_by_location_and_crime df) as Hrow
      by (rewrite Hagg; left).
    apply elem_of_aggregate in Hrow as (k & Hk & _).
    apply elem_of_group_keys in Hk as (r & Hr & _ & Hc).
    rewrite (Hnone r Hr) in Hc. done.
Qed.

Lemma X5_empty_aggregate_witness :
  (∀ r, r ∈ [bare (dec 4236 100) (dec (-7109) 100) None] → Crime r = None)
  ∧ aggregate_by_location_and_crime [bare (dec 4236 100) (dec (-7109) 100) None]
    = [].
Proof.
  assert (∀ r, r ∈ [bare (dec 4236 100) (dec (-7109) 100) None] → Crime r = None)
    as Hnone by (by intros r ->%list_elem_of_singleton).
  split; [done|]. by apply X5_empty_aggregate.
Defined.

Lemma location_fields_agg_of_key (df : list incident) k :
  location_fields (agg_of_key df k)
  = (length (incidents_at df k.1),
     first (Neighborhood <$> incidents_at df k.1),
     first (Location <$> incidents_at df k.1),
     first (Reporting_Area <$> incidents_at df k.1)).
Proof.
  unfold location_fields, agg_of_key. simpl. by rewrite count_loc.
Qed.

(** X6: the fields joined on (lat, lon) are consistent: two aggregate rows
    at the same coordinate carry the same [total_incidents] and the same
    neighborhood, location label and area identifier, whatever their
    categories. *)
Theorem X6_rows_of_a_location_agree (df : list incident) (row1 row2 : agg_row) :
  row1 ∈ aggregate_by_location_and_crime df →
  row2 ∈ aggregate_by_location_and_crime df →
  coord_of row1 = coord_of row2 →
  location_fields row1 = location_fields row2.
Proof.
  intros (k1 & _ & ->)%elem_of_aggregate (k2 & _ & ->)%elem_of_aggregate.
  rewrite !coord_agg_of_key, !location_fields_agg_of_key. by intros ->.
Qed.

Lemma X6_rows_of_a_location_agree_witness :
  let row1 := AggRow (dec 4237 100) (dec (-7110) 100) "Assault" 1 2
                (Some "Area 4") (Some "200 Main St") None in
  let row2 := AggRow (dec 4237 100) (dec (-7110) 100) "Theft" 1 2
                (Some "Area 4") (Some "200 Main St") None in
  row1 ∈ aggregate_by_location_and_crime df_mixed
  ∧ row2 ∈ aggregate_by_location_and_crime df_mixed
  ∧ location_fields row1 = location_fields row2.
Proof.
  intros row1 row2.
  assert (row1 ∈ aggregate_by_location_and_crime df_mixed) as H1
    by by_computation.
  assert (row2 ∈ aggregate_by_location_and_crime df_mixed) as H2
    by by_computation.
  split_and!; [done..|].
  by apply (X6_rows_of_a_location_agree df_mixed).
Defined.

(** ** The loader, row by row *)

Global Instance bad_coords_dec str_to_numeric r :
  Decision (bad_coords str_to_numeric r).
Proof. unfold bad_coords. apply _. Defined.

Lemma with_coords_bad str_to_numeric r :
  bad_coords str_to_numeric r → with_coords str_to_numeric r = None.
Proof.
  unfold with_coords. intros [-> | ->]; [done|]. by case_match.
Qed.

Lemma with_coords_good str_to_numeric r :
  ¬ bad_coords str_to_numeric r →
  ∃ i, with_coords str_to_numeric r = Some i
     ∧ fields i = raw_fields r
     ∧ Some (lat i) = to_numeric str_to_numeric (Reporting_Area_Lat r)
     ∧ Some (lon i) = to_numeric str_to_numeric (Reporting_Area_Lon r).
Proof.
  unfold bad_coords, with_coords. intros Hgood.
  destruct (to_numeric _ (Reporting_Area_Lat r)) as [x|]; [|by destruct Hgood; left].
  destruct (to_numeric _ (Reporting_Area_Lon r)) as [y|]; [|by destruct Hgood; right].
  by eexists.
Qed.

(** X7: the cleaned frame consists of the rows of the file whose two
    coordinate entries are numeric, in the order of the file: the descriptive
    columns are carried over unchanged, [lat] and [lon] are the numbers the
    entries denote, and the number of cleaned incidents is the number of such
    rows. *)
Theorem X7_cleaned_frame_is_the_good_rows (str_to_numeric : string → option Qc)
    (df : list raw_row) :
  let good := filter (λ r, ¬ bad_coords str_to_numeric r) df in
  length (process_data str_to_numeric df) = length good
  ∧ fields <$> process_data str_to_numeric df = raw_fields <$> good
  ∧ Some ∘ lat <$> process_data str_to_numeric df
    = to_numeric str_to_numeric ∘ Reporting_Area_Lat <$> good
  ∧ Some ∘ lon <$> process_data str_to_numeric df
    = to_numeric str_to_numeric ∘ Reporting_Area_Lon <$> good.
Proof.
  simpl. rewrite process_data_omap.
  induction df as [|r df (IH1 & IH2 & IH3 & IH4)]; [done|].
  rewrite filter_cons. cbn [omap list_omap].
  destruct (decide (¬ bad_coords str_to_numeric r)) as [Hgood|Hbad].
  - destruct (with_coords_good _ _ Hgood) as (i & -> & Hf & Hla & Hlo).
    split_and!; rewrite ?fmap_cons; cbn [length].
    + by rewrite IH1.
    + by rewrite IH2, Hf.
    + rewrite IH3. f_equal. exact Hla.
    + rewrite IH4. f_equal. exact Hlo.
  - rewrite with_coords_bad; [done|].
    by destruct (decide (bad_coords str_to_numeric r)).
Qed.

(** X8: the first [dropna] of the loader is redundant: an entry it would
    drop is turned into NaN by [to_numeric] and dropped by the second
    [dropna], so cleaning without it yields the same frame. *)
Theorem X8_first_dropna_is_redundant (str_to_numeric : string → option Qc)
    (df : list raw_row) :
  omap (with_coords str_to_numeric) (dropna_raw df)
  = omap (with_coords str_to_numeric) df.
Proof. apply (process_data_omap str_to_numeric df). Qed.

(** ** The colour mapping as a dictionary *)

Lemma dict_comprehension_lookup_None colors types c :
  c ∉ types → dict_comprehension colors types !! c = None.
Proof.
  induction types as [|c' types IH] using rev_ind; intros Hc; [done|].
  rewrite dict_comprehension_snoc.
  apply not_elem_of_app in Hc as [Hc Hc'].
  rewrite lookup_insert_ne; [by apply IH|].
  intros ->. apply Hc'. left.
Qed.

Lemma dict_comprehension_size colors types :
  NoDup types → size (dict_comprehension colors types) = length types.
Proof.
  induction types as [|c types IH] using rev_ind; intros Hnd; [done|].
  apply NoDup_app in Hnd as (Hnd & Hfresh & _).
  rewrite dict_comprehension_snoc, length_app. simpl.
  rewrite map_size_insert_None, IH by
    (done || apply dict_comprehension_lookup_None; intros Hin;
     apply (Hfresh c Hin); left).
  lia.
Qed.

(** X9: the keys of the colour mapping are exactly the categories of the
    aggregate rows, one entry per distinct category; looking up any other
    category raises [KeyError] with that category. *)
Theorem X9_color_map_keys (aggregated : list agg_row) :
  size (color_map aggregated) = length (crime_types aggregated)
  ∧ ∀ c,
      (is_Some (color_map aggregated !! c)
       ↔ ∃ row, row ∈ aggregated ∧ a_Crime row = c)
      ∧ ((∀ row, row ∈ aggregated → a_Crime row ≠ c) →
         getitem (color_map aggregated) c = Raise (KeyError c)).
Proof.
  split; [apply dict_comprehension_size, NoDup_unique|].
  intros c.
  assert (c ∈ crime_types aggregated ↔ ∃ row, row ∈ aggregated ∧ a_Crime row = c)
    as Hcat.
  { unfold crime_types. rewrite elem_of_unique, list_elem_of_fmap. naive_solver. }
  split.
  - rewrite <-Hcat. split.
    + intros [col Hcol]. destruct (decide (c ∈ crime_types aggregated)) as [|Hn];
        [done|].
      unfold color_map in Hcol.
      by rewrite dict_comprehension_lookup_None in Hcol.
    + intros [i Hi]%list_elem_of_lookup.
      rewrite (color_map_lookup _ i) by done.
      apply lookup_lt_is_Some_2. rewrite palette_length.
      by apply Nat.mod_upper_bound.
  - intros Hnone. unfold getitem, color_map.
    rewrite dict_comprehension_lookup_None; [done|].
    rewrite Hcat. intros (row & Hrow & Hc). by apply (Hnone row).
Qed.

Lemma X9_color_map_keys_witness :
  (∀ row, row ∈ aggregate_by_location_and_crime df_scenario →
     a_Crime row ≠ "Arson")
  ∧ getitem (color_map (aggregate_by_location_and_crime df_scenario)) "Arson"
    = Raise (KeyError "Arson").
Proof.
  assert (∀ row, row ∈ aggregate_by_location_and_crime df_scenario →
            a_Crime row ≠ "Arson") as Hnone.
  { intros row Hrow Hc.
    assert ("Arson" ∈ a_Crime <$> aggregate_by_location_and_crime df_scenario)
      as Hin by (rewrite <-Hc; by apply list_elem_of_fmap_2).
    revert Hin. by_computation. }
  split; [done|].
  destruct (X9_color_map_keys (aggregate_by_location_and_crime df_scenario))
    as (_ & Hkeys).
  by apply Hkeys.
Defined.

(** X10: the palette is reused cyclically and in no other way: two
    categories get the same colour exactly when their ranks in order of
    first appearance are congruent modulo 20. *)
Theorem X10_same_color_iff_ranks_congruent (aggregated : list agg_row)
    (i j : nat) (ci cj : string) :
  crime_types aggregated !! i = Some ci →
  crime_types aggregated !! j = Some cj →
  color_map aggregated !! ci = color_map aggregated !! cj
  ↔ i `mod` 20 = j `mod` 20.
Proof.
  intros Hi Hj.
  rewrite (color_map_lookup _ i), (color_map_lookup _ j) by done.
  split; [|by intros ->].
  destruct (lookup_lt_is_Some_2 get_color_palette (i `mod` 20)) as [col Hcol].
  { rewrite palette_length. by apply Nat.mod_upper_bound. }
  rewrite Hcol. intros Heq. symmetry in Heq.
  eapply NoDup_lookup; eauto using palette_NoDup.
Qed.

Lemma X10_same_color_iff_ranks_congruent_witness :
  crime_types (aggregate_by_location_and_crime df_scenario) !! 0 = Some "Theft"
  ∧ crime_types (aggregate_by_location_and_crime df_scenario) !! 1 = Some "Assault"
  ∧ (color_map (aggregate_by_location_and_crime df_scenario) !! "Theft"
     = color_map (aggregate_by_location_and_crime df_scenario) !! "Assault"
     ↔ 0 `mod` 20 = 1 `mod` 20).
Proof.
  assert (crime_types (aggregate_by_location_and_crime df_scenario) !! 0
          = Some "Theft") as H0 by by_computation.
  assert (crime_types (aggregate_by_location_and_crime df_scenario) !! 1
          = Some "Assault") as H1 by by_computation.
  split_and!; [done..|].
  by apply X10_same_color_iff_ranks_congruent.
Defined.

(** ** The markers *)

Lemma elem_of_zip_l {A B} (l : list A) (k : list B) x y :
  (x, y) ∈ zip l k → x ∈ l.
Proof.
  revert k. induction l as [|x' l IH]; intros [|y' k]; simpl;
    try by intros ?%elem_of_nil.
  intros [[= -> ->]|Hin]%elem_of_cons; [left|right; eauto].
Qed.

Lemma elem_of_zip_r {A B} (l : list A) (k : list B) x y :
  (x, y) ∈ zip l k → y ∈ k.
Proof.
  revert k. induction l as [|x' l IH]; intros [|y' k]; simpl;
    try by intros ?%elem_of_nil.
  intros [[= -> ->]|Hin]%elem_of_cons; [left|right; eauto].
Qed.

Lemma Forall2_zip_l {A B} (P : A → B → Prop) (l : list A) (k : list B) x :
  Forall2 P l k → x ∈ l → ∃ y, (x, y) ∈ zip l k.
Proof.
  induction 1 as [|x' y' l k _ _ IH]; [by intros ?%elem_of_nil|].
  intros [->|Hin]%elem_of_cons.
  - exists y'. left.
  - destruct (IH Hin) as [y Hy]. exists y. by right.
Qed.

Lemma Forall2_zip_r {A B} (P : A → B → Prop) (l : list A) (k : list B) y :
  Forall2 P l k → y ∈ k → ∃ x, (x, y) ∈ zip l k.
Proof.
  induction 1 as [|x' y' l k _ _ IH]; [by intros ?%elem_of_nil|].
  intros [->|Hin]%elem_of_cons.
  - exists x'. left.
  - destruct (IH Hin) as [x Hx]. exists x. by right.
Qed.

Lemma series_min_max_nonempty (col : list nat) :
  col ≠ [] → ∃ mn mx, series_min col = Some mn ∧ series_max col = Some mx.
Proof. destruct col; [done|]. intros _. by do 2 eexists. Qed.

Lemma circle_marker_popup cmap min_total max_total row m :
  circle_marker cmap min_total max_total row = Ok m →
  m_popup m
  = Popup (or_not_specified (a_Location row))
          (or_not_specified (a_Neighborhood row))
          (a_Crime row) (frequency row) (total_incidents row).
Proof.
  unfold circle_marker, getitem.
  destruct (cmap !! a_Crime row) as [c|]; [|done]. simpl.
  by intros [= <-].
Qed.

(** The marker made for a row of the frame. *)
Lemma add_markers_zip cmap (aggregated : list agg_row) ms row m :
  add_markers cmap aggregated = Ok ms →
  (row, m) ∈ zip aggregated ms →
  ∃ min_total max_total,
    series_min (total_incidents <$> aggregated) = Some min_total
    ∧ series_max (total_incidents <$> aggregated) = Some max_total
    ∧ row ∈ aggregated
    ∧ circle_marker cmap min_total max_total row = Ok m.
Proof.
  intros Hms Hin.
  pose proof (elem_of_zip_l _ _ _ _ Hin) as Hrow.
  destruct (series_min_max_nonempty (total_incidents <$> aggregated))
    as (mn & mx & Hmin & Hmax).
  { destruct aggregated; [by apply elem_of_nil in Hrow|done]. }
  exists mn, mx. split_and!; [done..|].
  pose proof (add_markers_Forall2 _ _ _ _ _ Hmin Hmax Hms) as Hall.
  by apply (Forall2_zip _ _ _ _ _ Hall).
Qed.

Lemma add_markers_each_row cmap (aggregated : list agg_row) ms row :
  add_markers cmap aggregated = Ok ms →
  row ∈ aggregated → ∃ m, (row, m) ∈ zip aggregated ms.
Proof.
  intros Hms Hrow.
  destruct (series_min_max_nonempty (total_incidents <$> aggregated))
    as (mn & mx & Hmin & Hmax).
  { destruct aggregated; [by apply elem_of_nil in Hrow|done]. }
  pose proof (add_markers_Forall2 _ _ _ _ _ Hmin Hmax Hms) as Hall.
  by eapply Forall2_zip_l.
Qed.

(** X11: markers are coloured by category.  Stroke and fill colour of a
    marker coincide, and as long as the aggregate has at most 20 distinct
    categories, two markers have the same colour exactly when their rows
    have the same category. *)
Theorem X11_markers_colored_by_category (aggregated : list agg_row)
    (ms : list marker) (row1 row2 : agg_row) (m1 m2 : marker) :
  add_markers (color_map aggregated) aggregated = Ok ms →
  length (crime_types aggregated) ≤ 20 →
  (row1, m1) ∈ zip aggregated ms →
  (row2, m2) ∈ zip aggregated ms →
  fillColor m1 = color m1
  ∧ (color m1 = color m2 ↔ a_Crime row1 = a_Crime row2).
Proof.
  intros Hms Hlen H1 H2.
  destruct (add_markers_zip _ _ _ _ _ Hms H1) as (mn & mx & _ & _ & Hr1 & Hm1).
  destruct (add_markers_zip _ _ _ _ _ Hms H2) as (? & ? & _ & _ & Hr2 & Hm2).
  apply circle_marker_Ok in Hm1 as (_ & _ & Hc1 & Hf1).
  apply circle_marker_Ok in Hm2 as (_ & _ & Hc2 & _).
  split; [done|].
  assert (a_Crime row1 ∈ crime_types aggregated) as [i Hi]%list_elem_of_lookup
    by (apply elem_of_unique; by apply list_elem_of_fmap_2).
  assert (a_Crime row2 ∈ crime_types aggregated) as [j Hj]%list_elem_of_lookup
    by (apply elem_of_unique; by apply list_elem_of_fmap_2).
  pose proof (lookup_lt_Some _ _ _ Hi). pose proof (lookup_lt_Some _ _ _ Hj).
  rewrite (color_map_lookup _ i) in Hc1 by done.
  rewrite (color_map_lookup _ j) in Hc2 by done.
  rewrite Nat.mod_small in Hc1, Hc2 by lia.
  split.
  - intros Heq. rewrite <-Heq in Hc2.
    assert (i = j) by (eapply NoDup_lookup; eauto using palette_NoDup).
    congruence.
  - intros Heq. rewrite Heq in Hi.
    assert (i = j)
      by (apply (NoDup_lookup (crime_types aggregated) i j (a_Crime row2));
          [apply NoDup_unique|done..]).
    congruence.
Qed.

(** X12: the markers of one location coincide.  The rows of the aggregate at
    the same coordinate, one per category, get markers at the same position
    with the same radius, since the radius depends on the location's total
    only. *)
Theorem X12_markers_of_a_location_coincide (df : list incident)
    (ms : list marker) (row1 row2 : agg_row) (m1 m2 : marker) :
  let aggregated := aggregate_by_location_and_crime df in
  add_markers (color_map aggregated) aggregated = Ok ms →
  (row1, m1) ∈ zip aggregated ms →
  (row2, m2) ∈ zip aggregated ms →
  coord_of row1 = coord_of row2 →
  m_location m1 = m_location m2 ∧ radius m1 = radius m2.
Proof.
  intros aggregated Hms H1 H2 Hco.
  destruct (add_markers_zip _ _ _ _ _ Hms H1) as (mn & mx & Hmn & Hmx & Hr1 & Hm1).
  destruct (add_markers_zip _ _ _ _ _ Hms H2)
    as (mn' & mx' & Hmn' & Hmx' & Hr2 & Hm2).
  assert (mn' = mn) as -> by congruence.
  assert (mx' = mx) as -> by congruence.
  apply circle_marker_Ok in Hm1 as (Hl1 & Hrad1 & _).
  apply circle_marker_Ok in Hm2 as (Hl2 & Hrad2 & _).
  split; [congruence|].
  rewrite Hrad1, Hrad2. f_equal.
  apply elem_of_aggregate in Hr1 as (k1 & _ & ->).
  apply elem_of_aggregate in Hr2 as (k2 & _ & ->).
  rewrite !coord_agg_of_key in Hco. rewrite !total_agg_of_key. by rewrite Hco.
Qed.

Lemma X11_markers_colored_by_category_witness :
  let aggregated := aggregate_by_location_and_crime df_mixed in
  let row1 := AggRow (dec 4237 100) (dec (-7110) 100) "Assault" 1 2
                (Some "Area 4") (Some "200 Main St") None in
  let row2 := AggRow (dec 4238 100) (dec (-7111) 100) "Assault" 1 1
                None None (Some "105") in
  ∃ ms m1 m2,
    add_markers (color_map aggregated) aggregated = Ok ms
    ∧ length (crime_types aggregated) ≤ 20
    ∧ (row1, m1) ∈ zip aggregated ms
    ∧ (row2, m2) ∈ zip aggregated ms
    ∧ color m1 = color m2.
Proof.
  intros aggregated row1 row2.
  destruct (add_markers_succeeds aggregated) as [ms Hms].
  assert (length (crime_types aggregated) ≤ 20) as Hlen by by_computation.
  destruct (add_markers_each_row _ _ _ row1 Hms) as [m1 H1]; [by_computation|].
  destruct (add_markers_each_row _ _ _ row2 Hms) as [m2 H2]; [by_computation|].
  exists ms, m1, m2. split_and!; [done..|].
  by apply (X11_markers_colored_by_category aggregated ms row1 row2 m1 m2).
Defined.

Lemma X12_markers_of_a_location_coincide_witness :
  let aggregated := aggregate_by_location_and_crime df_mixed in
  let row1 := AggRow (dec 4237 100) (dec (-7110) 100) "Assault" 1 2
                (Some "Area 4") (Some "200 Main St") None in
  let row2 := AggRow (dec 4237 100) (dec (-7110) 100) "Theft" 1 2
                (Some "Area 4") (Some "200 Main St") None in
  ∃ ms m1 m2,
    add_markers (color_map aggregated) aggregated = Ok ms
    ∧ (row1, m1) ∈ zip aggregated ms
    ∧ (row2, m2) ∈ zip aggregated ms
    ∧ coord_of row1 = coord_of row2
    ∧ m_location m1 = m_location m2 ∧ radius m1 = radius m2.
Proof.
  intros aggregated row1 row2.
  destruct (add_markers_succeeds aggregated) as [ms Hms].
  destruct (add_markers_each_row _ _ _ row1 Hms) as [m1 H1]; [by_computation|].
  destruct (add_markers_each_row _ _ _ row2 Hms) as [m2 H2]; [by_computation|].
  assert (coord_of row1 = coord_of row2) as Hco by reflexivity.
  exists ms, m1, m2. do 4 (split; [done|]).
  by apply (X12_markers_of_a_location_coincide df_mixed ms row1 row2 m1 m2).
Defined.

(** ** The radius scale *)

Lemma Finite_inj (a b : Qc) : Finite a = Finite b → a = b.
Proof. congruence. Qed.

Lemma interpolate_lt (min_total max_total t1 t2 : nat) :
  min_total < max_total → t1 < t2 →
  (interpolate min_total max_total t1 < interpolate min_total max_total t2)%Qc.
Proof.
  intros Hrange Ht. unfold interpolate.
  apply (proj1 (Qcplus_lt_mono_l _ _ _)).
  assert (0 < Qc_of_Z 20)%Qc as H20.
  { rewrite <-Z2Qc_inj_0. by apply (proj1 (Z2Qc_inj_lt _ _)). }
  apply (proj1 (Qcmult_lt_mono_pos_r _ _ _ H20)).
  apply (proj1 (Qcmult_lt_mono_pos_r _ _ _
                  (Qcinv_pos _ (width_pos _ _ Hrange)))).
  rewrite <-!Z2Qc_inj_sub. apply (proj1 (Z2Qc_inj_lt _ _)). lia.
Qed.

Lemma interpolate_inj (min_total max_total t1 t2 : nat) :
  min_total < max_total →
  interpolate min_total max_total t1 = interpolate min_total max_total t2 →
  t1 = t2.
Proof.
  intros Hrange Heq.
  destruct (Nat.lt_trichotomy t1 t2) as [Hlt|[->|Hlt]]; [|done|];
    apply (interpolate_lt _ _ _ _ Hrange), Qclt_not_eq in Hlt; congruence.
Qed.

(** X13: the radius scale is used in full.  With [min_total < max_total], a
    marker has radius 5 exactly when its location has the least number of
    incidents and radius 25 exactly when it has the greatest, and markers of
    both radii exist. *)
Theorem X13_radius_extremes (aggregated : list agg_row) (ms : list marker)
    (min_total max_total : nat) :
  series_min (total_incidents <$> aggregated) = Some min_total →
  series_max (total_incidents <$> aggregated) = Some max_total →
  min_total < max_total →
  add_markers (color_map aggregated) aggregated = Ok ms →
  (∀ row m, (row, m) ∈ zip aggregated ms →
     (radius m = Finite (Qc_of_Z 5) ↔ total_incidents row = min_total)
     ∧ (radius m = Finite (Qc_of_Z 25) ↔ total_incidents row = max_total))
  ∧ (∃ m, m ∈ ms ∧ radius m = Finite (Qc_of_Z 5))
  ∧ (∃ m, m ∈ ms ∧ radius m = Finite (Qc_of_Z 25)).
Proof.
  intros Hmin Hmax Hrange Hms.
  assert (∀ row m, (row, m) ∈ zip aggregated ms →
            radius m
            = Finite (interpolate min_total max_total (total_incidents row)))
    as Hrad.
  { intros row m Hin.
    destruct (add_markers_zip _ _ _ _ _ Hms Hin) as (mn & mx & ? & ? & _ & Hm).
    assert (mn = min_total) as -> by congruence.
    assert (mx = max_total) as -> by congruence.
    apply circle_marker_Ok in Hm as (_ & -> & _).
    apply marker_size_interpolate. lia. }
  assert (∀ row m, (row, m) ∈ zip aggregated ms →
     (radius m = Finite (Qc_of_Z 5) ↔ total_incidents row = min_total)
     ∧ (radius m = Finite (Qc_of_Z 25) ↔ total_incidents row = max_total))
    as Hiff.
  { intros row m Hin. rewrite (Hrad row m Hin).
    rewrite <-(interpolate_min min_total max_total).
    rewrite <-(interpolate_max min_total max_total) by done.
    split; (split; [intros Heq%Finite_inj|intros Heq]);
      [exact (interpolate_inj _ _ _ _ Hrange Heq)|by rewrite Heq
      |exact (interpolate_inj _ _ _ _ Hrange Heq)|by rewrite Heq]. }
  split; [done|].
  destruct (series_min_spec _ _ Hmin) as [(r1 & Ht1 & Hr1)%list_elem_of_fmap _].
  destruct (series_max_spec _ _ Hmax) as [(r2 & Ht2 & Hr2)%list_elem_of_fmap _].
  destruct (add_markers_each_row _ _ _ r1 Hms Hr1) as [m1 H1].
  destruct (add_markers_each_row _ _ _ r2 Hms Hr2) as [m2 H2].
  split; [exists m1|exists m2]; (split; [by eapply elem_of_zip_r|]).
  - by apply (Hiff r1 m1 H1).
  - by apply (Hiff r2 m2 H2).
Qed.

Lemma X13_radius_extremes_witness :
  let aggregated := aggregate_by_location_and_crime df_mixed in
  ∃ ms,
    add_markers (color_map aggregated) aggregated = Ok ms
    ∧ (∃ m, m ∈ ms ∧ radius m = Finite (Qc_of_Z 5))
    ∧ (∃ m, m ∈ ms ∧ radius m = Finite (Qc_of_Z 25)).
Proof.
  intros aggregated.
  destruct (add_markers_succeeds aggregated) as [ms Hms].
  exists ms. split; [done|].
  destruct (X13_radius_extremes aggregated ms 1 2) as (_ & H5 & H25);
    [by_computation|by_computation|lia|done|done].
Defined.

(** X14: a radius is nan exactly in the degenerate case.  Every marker gets
    radius nan when all locations have the same number of incidents, and no
    marker does otherwise. *)
Theorem X14_radius_nan_iff_degenerate (cmap : gmap string string)
    (aggregated : list agg_row) (ms : list marker)
    (min_total max_total : nat) (m : marker) :
  series_min (total_incidents <$> aggregated) = Some min_total →
  series_max (total_incidents <$> aggregated) = Some max_total →
  add_markers cmap aggregated = Ok ms →
  m ∈ ms →
  radius m = NaN ↔ min_total = max_total.
Proof.
  intros Hmin Hmax Hms Hm.
  pose proof (add_markers_Forall2 _ _ _ _ _ Hmin Hmax Hms) as Hall.
  destruct (Forall2_zip_r _ _ _ _ Hall Hm) as [row Hin].
  pose proof (Forall2_zip _ _ _ _ _ Hall Hin) as (_ & Hrad & _)%circle_marker_Ok.
  pose proof (total_in_range _ _ _ _ Hmin Hmax (elem_of_zip_l _ _ _ _ Hin)).
  rewrite Hrad. split.
  - intros Hnan. destruct (decide (min_total = max_total)) as [|Hne]; [done|].
    by rewrite marker_size_interpolate in Hnan.
  - intros <-. replace (total_incidents row) with min_total by lia.
    apply marker_size_degenerate.
Qed.

Lemma X14_radius_nan_iff_degenerate_witness :
  let aggregated := aggregate_by_location_and_crime df_single in
  ∃ ms m,
    add_markers (color_map aggregated) aggregated = Ok ms
    ∧ m ∈ ms
    ∧ (radius m = NaN ↔ 1 = 1).
Proof.
  intros aggregated.
  destruct (add_markers_succeeds aggregated) as [ms Hms].
  destruct (add_markers_each_row _ _ _
              (AggRow (dec 4237 100) (dec (-7110) 100) "Theft" 1 1 None None None)
              Hms) as [m Hin]; [by_computation|].
  pose proof (elem_of_zip_r _ _ _ _ Hin) as Hm.
  exists ms, m. split_and!; [done..|].
  apply (X14_radius_nan_iff_degenerate (color_map aggregated) aggregated ms);
    [by_computation|by_computation|done|done].
Defined.

(** ** Popups and legend *)

(** X15: what a popup shows.  The popup of a marker carries the category,
    the frequency and the location's total of its row; its location label
    and neighbourhood are the first ones present among the incidents at the
    coordinate, and the text "Not specified" when no incident there has
    one. *)
Theorem X15_popup_contents (df : list incident) (ms : list marker)
    (row : agg_row) (m : marker) :
  let aggregated := aggregate_by_location_and_crime df in
  let g := incidents_at df (coord_of row) in
  add_markers (color_map aggregated) aggregated = Ok ms →
  (row, m) ∈ zip aggregated ms →
  p_Crime (m_popup m) = a_Crime row
  ∧ p_frequency (m_popup m) = frequency row
  ∧ p_total_incidents (m_popup m) = length g
  ∧ p_frequency (m_popup m) ≤ p_total_incidents (m_popup m)
  ∧ (∃ lc, first_present (Location <$> g) lc
         ∧ p_Location (m_popup m) = default "Not specified" lc)
  ∧ (∃ nb, first_present (Neighborhood <$> g) nb
         ∧ p_Neighborhood (m_popup m) = default "Not specified" nb).
Proof.
  intros aggregated g Hms Hin. subst g.
  destruct (add_markers_zip _ _ _ _ _ Hms Hin) as (mn & mx & _ & _ & Hrow & Hm).
  rewrite (circle_marker_popup _ _ _ _ _ Hm). simpl.
  apply elem_of_aggregate in Hrow as (k & _ & ->).
  rewrite coord_agg_of_key, total_agg_of_key, frequency_agg_of_key.
  split_and!; [done..|apply length_filter| |].
  - exists (first (Location <$> incidents_at df k.1)).
    split; [apply first_first_present|done].
  - exists (first (Neighborhood <$> incidents_at df k.1)).
    split; [apply first_first_present|done].
Qed.

Lemma X15_popup_contents_witness :
  let aggregated := aggregate_by_location_and_crime df_mixed in
  let row := AggRow (dec 4238 100) (dec (-7111) 100) "Assault" 1 1
               None None (Some "105") in
  ∃ ms m,
    add_markers (color_map aggregated) aggregated = Ok ms
    ∧ (row, m) ∈ zip aggregated ms
    ∧ p_Crime (m_popup m) = "Assault"
    ∧ p_frequency (m_popup m) = 1.
Proof.
  intros aggregated row.
  destruct (add_markers_succeeds aggregated) as [ms Hms].
  destruct (add_markers_each_row _ _ _ row Hms) as [m Hin]; [by_computation|].
  exists ms, m. split_and!; [done..| |];
    by destruct (X15_popup_contents df_mixed ms row m Hms Hin) as (? & ? & _).
Defined.

Lemma Forall2_fmap_eq {A B C} (f : A → C) (g : B → C) (l : list A) (k : list B) :
  Forall2 (λ x y, g y = f x) l k → g <$> k = f <$> l.
Proof. induction 1 as [|x y l k Hxy _ IH]; csimpl; [done|]. by rewrite Hxy, IH. Qed.

(** X16: the legend accounts for every marker once: the location counts of
    the legend lines add up to the number of aggregate rows, which is the
    number of markers. *)
Theorem X16_legend_counts_add_up (cmap : gmap string string)
    (aggregated : list agg_row) (lg : list legend_entry) (ms : list marker) :
  legend cmap aggregated = Ok lg →
  add_markers cmap aggregated = Ok ms →
  sum_list (l_count <$> lg) = length aggregated
  ∧ length ms = length aggregated.
Proof.
  intros Hlg Hms. split.
  - assert (l_count <$> lg
            = (λ c, length (filter (λ row, a_Crime row = c) aggregated))
              <$> sorted (crime_types aggregated)) as ->.
    { apply Forall2_fmap_eq.
      eapply Forall2_impl; [exact (legend_Forall2 _ _ _ Hlg)|].
      by intros c e (_ & _ & Hn). }
    apply sum_count_partition.
    + unfold sorted. rewrite merge_sort_Permutation. apply NoDup_unique.
    + intros row Hrow. unfold sorted. rewrite merge_sort_Permutation.
      apply elem_of_unique. by apply list_elem_of_fmap_2.
  - apply markers_locations in Hms. apply (f_equal length) in Hms.
    by rewrite !length_fmap in Hms.
Qed.

Lemma X16_legend_counts_add_up_witness :
  let aggregated := aggregate_by_location_and_crime df_mixed in
  ∃ lg ms,
    legend (color_map aggregated) aggregated = Ok lg
    ∧ add_markers (color_map aggregated) aggregated = Ok ms
    ∧ sum_list (l_count <$> lg) = length aggregated.
Proof.
  intros aggregated.
  destruct (legend_succeeds aggregated) as [lg Hlg].
  destruct (add_markers_succeeds aggregated) as [ms Hms].
  exists lg, ms. split_and!; [done..|].
  by destruct (X16_legend_counts_add_up _ _ _ _ Hlg Hms).
Defined.

(** ** The run as a whole *)



(** ** The summary counts *)

Lemma length_unique_le `{EqDecision A} (l : list A) :
  length (unique l) ≤ length l.
Proof.
  induction l as [|x l IH]; simpl; [done|].
  pose proof (length_filter (λ y, y ≠ x) (unique l)). lia.
Qed.

Lemma crime_types_of_aggregate (df : list incident) (c : string) :
  c ∈ crime_types (aggregate_by_location_and_crime df) ↔ Some c ∈ Crime <$> df.
Proof.
  unfold crime_types. rewrite elem_of_unique, !list_elem_of_fmap. split.
  - intros (row & -> & (k & Hk & ->)%elem_of_aggregate).
    apply elem_of_group_keys in Hk as (r & Hr & _ & Hc).
    exists r. by destruct k as [[??]?].
  - intros (r & Hc & Hr).
    exists (agg_of_key df (loc r, c)). split; [done|].
    apply elem_of_aggregate. exists (loc r, c). split; [|done].
    apply elem_of_group_keys. by exists r.
Qed.

Lemma coords_of_aggregate (df : list incident) (c : Qc * Qc) :
  c ∈ coord_of <$> aggregate_by_location_and_crime df
  ↔ ∃ r, r ∈ df ∧ loc r = c ∧ is_Some (Crime r).
Proof.
  rewrite list_elem_of_fmap. split.
  - intros (row & -> & (k & Hk & ->)%elem_of_aggregate).
    apply elem_of_group_keys in Hk as (r & Hr & Hl & Hc).
    exists r. rewrite coord_agg_of_key. by rewrite Hc.
  - intros (r & Hr & <- & [cr Hcr]).
    exists (agg_of_key df (loc r, cr)). rewrite coord_agg_of_key.
    split; [done|]. apply elem_of_aggregate. exists (loc r, cr).
    split; [|done]. apply elem_of_group_keys. by exists r.
Qed.

(** X18: how the counts of the summary relate to the map.  "Total
    incidents" is the number of cleaned rows; "Unique locations" is the
    number of distinct coordinates, at most the number of incidents and at
    least the number of distinct marker positions, the two being equal when
    every incident has a category; "Crime types" is the number of legend
    categories, plus one when some incident has no category, since
    [unique()] counts NaN as a value. *)
Theorem X18_summary_counts (df : list incident) :
  let aggregated := aggregate_by_location_and_crime df in
  let places := length (unique (coord_of <$> aggregated)) in
  summary_counts df
  = (length df,
     length (unique (loc <$> df)),
     length (crime_types aggregated)
     + (if decide (None ∈ Crime <$> df) then 1 else 0))
  ∧ places ≤ length (unique (loc <$> df)) ≤ length df
  ∧ ((∀ r, r ∈ df → is_Some (Crime r)) →
     places = length (unique (loc <$> df))).
Proof.
  intros aggregated places. subst places aggregated. split_and!.
  - unfold summary_counts, groupby_size.
    rewrite length_fmap, merge_sort_Permutation. do 2 f_equal.
    assert (unique (Crime <$> df)
            ≡ₚ (Some <$> crime_types (aggregate_by_location_and_crime df))
               ++ (if decide (None ∈ Crime <$> df) then [None] else []))
      as ->.
    { apply NoDup_Permutation; [apply NoDup_unique| |].
      - apply NoDup_app. split_and!.
        + apply (NoDup_fmap_2 _), NoDup_unique.
        + intros x (c & -> & _)%list_elem_of_fmap.
          case_decide; [by intros [=]%list_elem_of_singleton|by intros ?%elem_of_nil].
        + case_decide; [apply NoDup_singleton|constructor].
      - intros [c|]; rewrite elem_of_unique, elem_of_app.
        + rewrite (list_elem_of_fmap_inj Some), crime_types_of_aggregate.
          split; [by left|]. intros [?|Hin]; [done|].
          case_decide; [by apply list_elem_of_singleton in Hin
                       |by apply elem_of_nil in Hin].
        + split.
          * intros Hin. right. rewrite decide_True by done. left.
          * intros [(c & [=] & _)%list_elem_of_fmap|Hin].
            case_decide; [done|by apply elem_of_nil in Hin]. }
    rewrite length_app, length_fmap. by case_decide.
  - apply submseteq_length, NoDup_submseteq; [apply NoDup_unique|].
    intros c. rewrite !elem_of_unique, coords_of_aggregate.
    intros (r & Hr & <- & _). by apply (list_elem_of_fmap_2 loc).
  - rewrite <-(length_fmap loc df). apply length_unique_le.
  - intros Hall. apply Permutation_length.
    apply NoDup_Permutation; [apply NoDup_unique..|].
    intros c. rewrite !elem_of_unique, coords_of_aggregate, list_elem_of_fmap.
    split.
    + intros (r & Hr & <- & _). by exists r.
    + intros (r & -> & Hr). exists r. split_and!; [done..|by apply Hall].
Qed.

Lemma X18_summary_counts_witness :
  (∀ r, r ∈ df_scenario → is_Some (Crime r))
  ∧ summary_counts df_scenario = (3, 2, 2)
  ∧ length (unique (coord_of <$> aggregate_by_location_and_crime df_scenario))
    = length (unique (loc <$> df_scenario)).
Proof.
  assert (∀ r, r ∈ df_scenario → is_Some (Crime r)) as Hall.
  { assert (Forall (λ r, is_Some (Crime r)) df_scenario) as HF
      by by_computation.
    intros r Hr. exact (proj1 (Forall_forall _ _) HF r Hr). }
  split; [done|].
  destruct (X18_summary_counts df_scenario) as (Hcounts & _ & Heq).
  split; [by rewrite Hcounts|by apply Heq].
Defined.

(** ** The centre of the map *)

Section mean_facts.
Local Open Scope Qc_scope.

Lemma Qc_of_nat_S (n : nat) :
  Qc_of_Z (Z.of_nat (S n)) = Qc_of_Z (Z.of_nat n) + 1.
Proof. by rewrite Nat2Z.inj_succ, <-Z.add_1_r, Z2Qc_inj_add, Z2Qc_inj_1. Qed.

Lemma sum_le_upper (col : list Qc) (hi : Qc) :
  (∀ x, x ∈ col → x ≤ hi) →
  foldr Qcplus 0 col ≤ Qc_of_Z (Z.of_nat (length col)) * hi.
Proof.
  induction col as [|x col IH]; intros Hhi.
  - cbn [foldr length]. change (Z.of_nat 0) with 0%Z.
    rewrite Z2Qc_inj_0, Qcmult_0_l. apply Qcle_refl.
  - cbn [foldr length]. rewrite Qc_of_nat_S.
    rewrite Qcmult_plus_distr_l, Qcmult_1_l, (Qcplus_comm x).
    apply Qcplus_le_compat; [|apply Hhi; left].
    apply IH. intros y Hy. apply Hhi. by right.
Qed.

Lemma sum_ge_lower (col : list Qc) (lo : Qc) :
  (∀ x, x ∈ col → lo ≤ x) →
  Qc_of_Z (Z.of_nat (length col)) * lo ≤ foldr Qcplus 0 col.
Proof.
  induction col as [|x col IH]; intros Hlo.
  - cbn [foldr length]. change (Z.of_nat 0) with 0%Z.
    rewrite Z2Qc_inj_0, Qcmult_0_l. apply Qcle_refl.
  - cbn [foldr length]. rewrite Qc_of_nat_S.
    rewrite Qcmult_plus_distr_l, Qcmult_1_l, (Qcplus_comm x).
    apply Qcplus_le_compat; [|apply Hlo; left].
    apply IH. intros y Hy. apply Hlo. by right.
Qed.

Lemma mean_between (col : list Qc) (lo hi c : Qc) :
  mean col = Some c →
  (∀ x, x ∈ col → lo ≤ x ≤ hi) →
  lo ≤ c ≤ hi.
Proof.
  intros Hmean Hbox.
  assert (0 < Qc_of_Z (Z.of_nat (length col))) as Hn.
  { destruct col; [done|]. rewrite <-Z2Qc_inj_0.
    apply (proj1 (Z2Qc_inj_lt _ _)). simpl. lia. }
  assert (c * Qc_of_Z (Z.of_nat (length col)) = foldr Qcplus 0 col) as Hc.
  { destruct col as [|x col]; [done|]. injection Hmean as <-.
    unfold Qcdiv. rewrite <-Qcmult_assoc, Qcmult_inv_l, Qcmult_1_r; [done|].
    intros H0. rewrite H0 in Hn. by apply Qclt_not_eq in Hn. }
  split; apply (Qcmult_le_mono_pos_r _ _ _ Hn); rewrite Hc, Qcmult_comm.
  - apply sum_ge_lower. intros x Hx. by apply Hbox.
  - apply sum_le_upper. intros x Hx. by apply Hbox.
Qed.
End mean_facts.


